(** * Tauchen discretisation of an AR(1) process: [ar1] of Thrust/ar1.cpp

    The development embeds the function [ar1] and proves the properties of
    the grid [Z] and of the transition matrix [P] it writes.

    Modelling choices.
    - [REAL] (float or double, fixed by global.h) is the type [R] of real
      numbers: the statements about [ar1] are about exact real arithmetic.
      The module [Double] embeds the function a second time, on binary64
      numbers, to show where the two part.
    - [exp], [log] and [sqrt] of <math.h> are [exp], [ln] and [sqrt] of the
      real-number library, and [pow] is [c_pow] below.  The error function
      [erf] of <math.h> is a variable of the sections; the few theorems
      that need more than its being a function name the property they use
      (odd, monotone, values in [-1, 1]).
    - [int] values are integers of [Z]; an [int] operation whose result is
      not representable in 32 bits has no defined result (the run fails).
    - A [thrust::device_vector<REAL>] is a list; [operator[]] at an index
      outside the container has no defined result (the run fails).
    - The three objects reachable from the call (the parameters record and
      the two containers, which are distinct objects) form the memory
      threaded through the run. *)

From Stdlib Require Import Floats.
From Stdlib Require Import ZArith Reals Lra Lia.
From stdpp Require Import base option list list_numbers.

#[local] Open Scope Z_scope.
#[local] Open Scope R_scope.

(** ** Data *)

(** Modelled from the spec: the type [REAL] of global.h, a header that is
    not among the sources (float or double), taken as the real numbers. *)
Abbreviation REAL := R (only parsing).

(** Modelled from the spec: class [parameters] of global.h, a header that
    is not among the sources.  The fields are those [ar1] reads, with the
    types of section 3 of the specification ([nz] is read into an [int]). *)
Record parameters : Type := Parameters {
  nz : Z;
  mu : REAL;
  rho : REAL;
  sigma : REAL;
  lambda : REAL
}.

(** [thrust::device_vector<REAL>]. *)
Abbreviation device_vector := (list R) (only parsing).

Record mem : Type := Mem {
  m_param : parameters;
  m_Z : device_vector;
  m_P : device_vector
}.

(** ** 32-bit [int] *)

Definition INT_MAX : Z := 2147483647.
Definition INT_MIN : Z := (-2147483648)%Z.

Definition in_int (z : Z) : bool := (INT_MIN <=? z)%Z && (z <=? INT_MAX)%Z.

(** ** Indexed access to a container *)

Definition vec_get (v : device_vector) (i : Z) : option REAL :=
  if (i <? 0)%Z then None else v !! Z.to_nat i.

Definition vec_set (v : device_vector) (i : Z) (x : REAL) : option device_vector :=
  if (0 <=? i)%Z && (i <? Z.of_nat (length v))%Z
  then Some (<[Z.to_nat i := x]> v)
  else None.

(** Reading for statements: the element, or 0 outside the container. *)
Definition elt (v : device_vector) (i : Z) : REAL := default 0 (vec_get v i).

(** ** A state and failure monad over the memory *)

Definition M (A : Type) : Type := mem -> option (A * mem).

Definition ret {A : Type} (a : A) : M A := fun m => Some (a, m).

Definition bind {A B : Type} (c : M A) (f : A -> M B) : M B :=
  fun m => match c m with
           | Some (a, m') => f a m'
           | None => None
           end.

Notation "x <- c ;; k" := (bind c (fun x => k))
  (at level 100, c at next level, right associativity).
Notation "c ;;; k" := (bind c (fun _ => k))
  (at level 100, right associativity).

Definition get_param : M parameters := fun m => Some (m_param m, m).

(** The result of an [int] operation. *)
Definition int_op (z : Z) : M Z :=
  fun m => if in_int z then Some (z, m) else None.

Definition read_Z (i : Z) : M REAL :=
  fun m => match vec_get (m_Z m) i with
           | Some x => Some (x, m)
           | None => None
           end.

Definition write_Z (i : Z) (x : REAL) : M unit :=
  fun m => match vec_set (m_Z m) i x with
           | Some v => Some (tt, Mem (m_param m) v (m_P m))
           | None => None
           end.

Definition read_P (i : Z) : M REAL :=
  fun m => match vec_get (m_P m) i with
           | Some x => Some (x, m)
           | None => None
           end.

Definition write_P (i : Z) (x : REAL) : M unit :=
  fun m => match vec_set (m_P m) i x with
           | Some v => Some (tt, Mem (m_param m) (m_Z m) v)
           | None => None
           end.

(** [for (int ix = lo; ix < hi; ++ix) body]: the body neither changes [ix]
    nor the bound, so the loop runs [hi - lo] times (none when [hi <= lo]).
    The bound is an [int], hence [++ix] stays representable. *)
Fixpoint for_loop (n : nat) (ix : Z) (body : Z -> M unit) : M unit :=
  match n with
  | O => ret tt
  | S n' => body ix ;;; for_loop n' (ix + 1)%Z body
  end.

Definition for_int (lo hi : Z) (body : Z -> M unit) : M unit :=
  for_loop (Z.to_nat (hi - lo)) lo body.

(** ** The power function of <math.h>

    [pow (x, y)] is [exp (y * log x)] for a positive base; for another
    base it is the integer power when [y] is an integer, and 0 for the base
    0 and a positive [y].  Elsewhere (a domain or pole error of the C
    function) the value chosen here plays no role. *)
Definition c_pow (x y : R) : R :=
  if Rlt_dec 0 x then Rpower x y
  else if Req_dec_T y (IZR (Int_part y)) then powerRZ x (Int_part y)
  else 0.

(** ** The constants of the grid (lines 52-56) *)

Definition sigma_z (p : parameters) : REAL :=
  sigma p / c_pow (1 - c_pow (rho p) 2) 0.5.
Definition mu_z (p : parameters) : REAL := mu p / (1 - rho p).
Definition zmin (p : parameters) : REAL := mu_z p - lambda p * sigma_z p.
Definition zmax (p : parameters) : REAL := mu_z p + lambda p * sigma_z p.
Definition zstep (p : parameters) : REAL := (zmax p - zmin p) / IZR (nz p - 1).

(** ** The function [ar1] *)

Section AR1.

Variable erf : R -> R.

(** The index [ix+nz*jx], computed on [int]. *)
Definition index (p : parameters) (ix jx : Z) : M Z :=
  t <- int_op (nz p * jx)%Z ;;
  int_op (ix + t)%Z.

(** The index [ix+nz*(nz-1)] of the top bin of row [ix]. *)
Definition top_index (p : parameters) (ix : Z) : M Z :=
  n1 <- int_op (nz p - 1)%Z ;;
  index p ix n1.

(** Line 57, the body of the grid loop. *)
Definition set_grid (p : parameters) (ix : Z) : M unit :=
  write_Z ix (exp (zmin p + zstep p * IZR ix)).

(** Lines 62-64: the bottom bin of row [ix] and the first value of its
    top bin. *)
Definition bottom_bin (p : parameters) (ix : Z) : M unit :=
  zi <- read_Z ix ;;
  let normarg1 := (zmin p - mu p - rho p * ln zi) / sigma p
                  + 0.5 * zstep p / sigma p in
  write_P ix (0.5 + 0.5 * erf (normarg1 / sqrt 2)) ;;;
  kt <- top_index p ix ;;
  b <- read_P ix ;;
  write_P kt (1 - b).

(** Lines 66-69: the interior bin [jx] of row [ix]. *)
Definition interior_bin (p : parameters) (ix jx : Z) : M unit :=
  zj <- read_Z jx ;;
  zi <- read_Z ix ;;
  let normarg1 := (ln zj - mu p - rho p * ln zi) / sigma p
                  + 0.5 * zstep p / sigma p in
  zj' <- read_Z jx ;;
  zi' <- read_Z ix ;;
  let normarg2 := (ln zj' - mu p - rho p * ln zi') / sigma p
                  - 0.5 * zstep p / sigma p in
  k <- index p ix jx ;;
  write_P k (0.5 * erf (normarg1 / sqrt 2) - 0.5 * erf (normarg2 / sqrt 2)) ;;;
  kt <- top_index p ix ;;
  t <- read_P kt ;;
  k' <- index p ix jx ;;
  v <- read_P k' ;;
  write_P kt (t - v).

(** Lines 62-70, the body of the loop over the origin states. *)
Definition row (p : parameters) (ix : Z) : M unit :=
  bottom_bin p ix ;;;
  h <- int_op (nz p - 1)%Z ;;
  for_int 1 h (interior_bin p ix).

(** Lines 40-71.  The first [int_op] is the read of [param.nz] into an
    [int], the second the [nz-1] of line 56. *)
Definition ar1 : M unit :=
  p <- get_param ;;
  _ <- int_op (nz p) ;;
  _ <- int_op (nz p - 1)%Z ;;
  for_int 0 (nz p) (set_grid p) ;;;
  for_int 0 (nz p) (row p).

End AR1.


(** ** The call contract *)

(** The preconditions on the parameters. *)
Definition valid (p : parameters) : Prop :=
  (3 <= nz p)%Z /\ 0 < sigma p /\ Rabs (rho p) < 1 /\ 0 < lambda p.

(** The containers hold at least [nz] and [nz*nz] elements, and the cells
    of the matrix can be indexed by an [int]. *)
Definition fits (p : parameters) (Zb Pb : device_vector) : Prop :=
  (nz p <= Z.of_nat (length Zb))%Z /\
  (nz p * nz p <= Z.of_nat (length Pb))%Z /\
  (nz p * nz p <= INT_MAX)%Z.

(** The containers are sized exactly. *)
Definition sized (p : parameters) (Zb Pb : device_vector) : Prop :=
  Z.of_nat (length Zb) = nz p /\
  Z.of_nat (length Pb) = (nz p * nz p)%Z /\
  (nz p * nz p <= INT_MAX)%Z.

(** ** Values to state the results with *)

(** [f 0 + f 1 + ... + f (n-1)]. *)
Fixpoint sum_below (n : nat) (f : Z -> R) : R :=
  match n with
  | O => 0
  | S n' => sum_below n' f + f (Z.of_nat n')
  end.

(** The sum over [j = 0..n-1] of [P[i + n*j]]. *)
Definition row_sum (n : Z) (P : device_vector) (i : Z) : R :=
  sum_below (Z.to_nat n) (fun j => elt P (i + n * j)%Z).

(** The grid value the loop of line 57 stores at [i]. *)
Definition grid (p : parameters) (i : Z) : REAL :=
  exp (zmin p + zstep p * IZR i).

(** The arguments of the error function at the upper and the lower edge of
    bin [j], seen from origin state [i]. *)
Definition upper_edge (p : parameters) (i j : Z) : R :=
  ((ln (grid p j) - mu p - rho p * ln (grid p i)) / sigma p
   + 0.5 * zstep p / sigma p) / sqrt 2.

Definition lower_edge (p : parameters) (i j : Z) : R :=
  ((ln (grid p j) - mu p - rho p * ln (grid p i)) / sigma p
   - 0.5 * zstep p / sigma p) / sqrt 2.

Section Values.

Variable erf : R -> R.

(** The standard normal distribution function, by the error function. *)
Definition Phi (x : R) : R := 0.5 + 0.5 * erf (x / sqrt 2).

(** The mass of the bottom bin and of an interior bin as the specification
    words them, for grid values [zi] (origin) and [zj] (destination): the
    distribution function at the upper edge of the bin, and the difference
    of its values at the upper and the lower edge. *)
Definition cdf_bottom (p : parameters) (zi : R) : R :=
  Phi ((zmin p - mu p - rho p * ln zi) / sigma p + 0.5 * zstep p / sigma p).

Definition cdf_difference (p : parameters) (zi zj : R) : R :=
  Phi ((ln zj - mu p - rho p * ln zi) / sigma p + 0.5 * zstep p / sigma p)
  - Phi ((ln zj - mu p - rho p * ln zi) / sigma p - 0.5 * zstep p / sigma p).

(** The value line 63 stores for an origin state whose grid value is [zi]. *)
Definition bottom_of (p : parameters) (zi : REAL) : REAL :=
  0.5 + 0.5 * erf (((zmin p - mu p - rho p * ln zi) / sigma p
                    + 0.5 * zstep p / sigma p) / sqrt 2).

(** The value line 68 stores for grid values [zi] (origin) and [zj]
    (destination). *)
Definition interior_of (p : parameters) (zi zj : REAL) : REAL :=
  0.5 * erf (((ln zj - mu p - rho p * ln zi) / sigma p
              + 0.5 * zstep p / sigma p) / sqrt 2)
  - 0.5 * erf (((ln zj - mu p - rho p * ln zi) / sigma p
                - 0.5 * zstep p / sigma p) / sqrt 2).

(** The top bin of row [i] after line 64 and [n] turns of the inner loop. *)
Fixpoint top_after (p : parameters) (i : Z) (n : nat) : REAL :=
  match n with
  | O => 1 - bottom_of p (grid p i)
  | S n' => top_after p i n' - interior_of p (grid p i) (grid p (Z.of_nat n))
  end.

(** The value of the bins [j < nz-1] of row [i]. *)
Definition lower_cell (p : parameters) (i j : Z) : REAL :=
  if (j =? 0)%Z then bottom_of p (grid p i)
  else interior_of p (grid p i) (grid p j).

(** The value of cell [(i, j)] when [ar1] returns. *)
Definition cell (p : parameters) (i j : Z) : REAL :=
  if (j <? nz p - 1)%Z then lower_cell p i j
  else top_after p i (Z.to_nat (nz p - 2)).

(** ** The data-parallel formulation of the specification (section 5, a)

    These definitions follow the text of the specification, not the code:
    every bin below the top one is computed on its own from the
    distribution function, then the top bin of each row is one minus the
    sum of the other bins of the row. *)

Definition par_Z (p : parameters) : device_vector :=
  (fun i => exp (zmin p + zstep p * IZR i)) <$> seqZ 0 (nz p).

Definition par_bin (p : parameters) (Zg : device_vector) (i j : Z) : REAL :=
  if (j =? 0)%Z then cdf_bottom p (elt Zg i)
  else if (j <? nz p - 1)%Z then cdf_difference p (elt Zg i) (elt Zg j)
  else 0.

(** First pass: one independent computation per cell [k = i + nz*j]. *)
Definition par_map (p : parameters) (Zg : device_vector) : device_vector :=
  (fun k => par_bin p Zg (k `mod` nz p)%Z (k `div` nz p)%Z)
    <$> seqZ 0 (nz p * nz p).

(** Second pass: the reduction of each row into its top bin. *)
Definition par_reduce (p : parameters) (P1 : device_vector) : device_vector :=
  (fun k =>
     if (k `div` nz p =? nz p - 1)%Z
     then 1 - sum_below (Z.to_nat (nz p - 1))
                        (fun j => elt P1 (k `mod` nz p + nz p * j)%Z)
     else elt P1 k)
    <$> seqZ 0 (nz p * nz p).

Definition par_P (p : parameters) : device_vector :=
  par_reduce p (par_map p (par_Z p)).

End Values.

(** ** Sample inputs *)

(** An odd, increasing function with values in (-1, 1), to instantiate the
    error function at. *)
Definition sample_erf (x : R) : R := x / (1 + Rabs x).

(** The scenarios of the specification. *)
Definition tauchen5 : parameters := Parameters 5 0 (9 / 10) (2 / 100) 3.
Definition iid3 : parameters := Parameters 3 0 0 1 3.

Definition zeros (n : nat) : device_vector := replicate n 0.

Definition call5 : mem := Mem tauchen5 (zeros 5) (zeros 25).
Definition call3 : mem := Mem iid3 (zeros 3) (zeros 9).

(** ** Further notions: what a run keeps, partial sums of a row *)

(** The second memory holds the parameters of the first and containers of
    the same lengths. *)
Definition same_shape (m m' : mem) : Prop :=
  m_param m' = m_param m /\
  length (m_Z m') = length (m_Z m) /\
  length (m_P m') = length (m_P m).

(** A computation that, when it returns, keeps the parameters and the
    lengths of the containers. *)
Definition keeps_shape {A : Type} (c : M A) : Prop :=
  forall m a m', c m = Some (a, m') -> same_shape m m'.

(** The sum over [j = 0..k] of [P[i + n*j]]. *)
Definition row_prefix (n : Z) (P : list R) (i k : Z) : R :=
  sum_below (Z.to_nat (k + 1)) (fun j => elt P (i + n * j)%Z).

(** Parameters with two states, and with none. *)
Definition pair2 : parameters := Parameters 2 0 (1 / 2) 1 3.
Definition none0 : parameters := Parameters 0 0 (1 / 2) 1 3.

(** Containers with arbitrary prior contents. *)
Definition filled (n : nat) (x : R) : list R := replicate n x.

(** ** The same function on binary64 numbers

    A second embedding of [ar1], with [REAL] read as [double]: the
    arithmetic is that of IEEE 754 binary64 (rounding to nearest, signed
    zeros, infinities, NaN), the control flow, the [int] arithmetic and the
    container accesses are as above.  [pow], [exp], [log] and [erf] of
    <math.h> are variables; [sqrt] is the correctly rounded square root.
    It serves to show where a statement about real numbers is not a
    statement about the numbers the program computes. *)

Module Double.

#[local] Open Scope float_scope.

Record parameters : Type := Parameters {
  nz : Z;
  mu : float;
  rho : float;
  sigma : float;
  lambda : float
}.

Record mem : Type := Mem {
  m_param : parameters;
  m_Z : list float;
  m_P : list float
}.

(** The conversion of an [int] to [double], exact on 32 bits. *)
Definition of_int (z : Z) : float :=
  if (z <? 0)%Z then - PrimFloat.of_uint63 (Uint63.of_Z (- z))
  else PrimFloat.of_uint63 (Uint63.of_Z z).

Definition vec_get (v : list float) (i : Z) : option float :=
  if (i <? 0)%Z then None else v !! Z.to_nat i.

Definition vec_set (v : list float) (i : Z) (x : float) : option (list float) :=
  if (0 <=? i)%Z && (i <? Z.of_nat (length v))%Z
  then Some (<[Z.to_nat i := x]> v)
  else None.

Definition M (A : Type) : Type := mem -> option (A * mem).

Definition ret {A : Type} (a : A) : M A := fun m => Some (a, m).

Definition bind {A B : Type} (c : M A) (f : A -> M B) : M B :=
  fun m => match c m with
           | Some (a, m') => f a m'
           | None => None
           end.

#[local] Notation "x <~ c ;; k" := (bind c (fun x => k))
  (at level 100, c at next level, right associativity).
#[local] Notation "c ;;~ k" := (bind c (fun _ => k))
  (at level 100, right associativity).

Definition get_param : M parameters := fun m => Some (m_param m, m).

Definition int_op (z : Z) : M Z :=
  fun m => if in_int z then Some (z, m) else None.

Definition read_Z (i : Z) : M float :=
  fun m => match vec_get (m_Z m) i with
           | Some x => Some (x, m)
           | None => None
           end.

Definition write_Z (i : Z) (x : float) : M unit :=
  fun m => match vec_set (m_Z m) i x with
           | Some v => Some (tt, Mem (m_param m) v (m_P m))
           | None => None
           end.

Definition read_P (i : Z) : M float :=
  fun m => match vec_get (m_P m) i with
           | Some x => Some (x, m)
           | None => None
           end.

Definition write_P (i : Z) (x : float) : M unit :=
  fun m => match vec_set (m_P m) i x with
           | Some v => Some (tt, Mem (m_param m) (m_Z m) v)
           | None => None
           end.

Fixpoint for_loop (n : nat) (ix : Z) (body : Z -> M unit) : M unit :=
  match n with
  | O => ret tt
  | S n' => body ix ;;~ for_loop n' (ix + 1)%Z body
  end.

Definition for_int (lo hi : Z) (body : Z -> M unit) : M unit :=
  for_loop (Z.to_nat (hi - lo)) lo body.

Definition index (p : parameters) (ix jx : Z) : M Z :=
  t <~ int_op (nz p * jx)%Z ;;
  int_op (ix + t)%Z.

Definition top_index (p : parameters) (ix : Z) : M Z :=
  n1 <~ int_op (nz p - 1)%Z ;;
  index p ix n1.

Section Libm.

Variable pow : float -> float -> float.
Variables exp log erf : float -> float.

(** Lines 52-56. *)
Definition sigma_z (p : parameters) : float :=
  sigma p / pow (1 - pow (rho p) 2) 0.5.
Definition mu_z (p : parameters) : float := mu p / (1 - rho p).
Definition zmin (p : parameters) : float := mu_z p - lambda p * sigma_z p.
Definition zmax (p : parameters) : float := mu_z p + lambda p * sigma_z p.
Definition zstep (p : parameters) : float :=
  (zmax p - zmin p) / of_int (nz p - 1).

(** Line 57. *)
Definition set_grid (p : parameters) (ix : Z) : M unit :=
  write_Z ix (exp (zmin p + zstep p * of_int ix)).

(** Lines 62-64. *)
Definition bottom_bin (p : parameters) (ix : Z) : M unit :=
  zi <~ read_Z ix ;;
  let normarg1 := (zmin p - mu p - rho p * log zi) / sigma p
                  + 0.5 * zstep p / sigma p in
  write_P ix (0.5 + 0.5 * erf (normarg1 / PrimFloat.sqrt 2)) ;;~
  kt <~ top_index p ix ;;
  b <~ read_P ix ;;
  write_P kt (1 - b).

(** Lines 66-69. *)
Definition interior_bin (p : parameters) (ix jx : Z) : M unit :=
  zj <~ read_Z jx ;;
  zi <~ read_Z ix ;;
  let normarg1 := (log zj - mu p - rho p * log zi) / sigma p
                  + 0.5 * zstep p / sigma p in
  zj' <~ read_Z jx ;;
  zi' <~ read_Z ix ;;
  let normarg2 := (log zj' - mu p - rho p * log zi') / sigma p
                  - 0.5 * zstep p / sigma p in
  k <~ index p ix jx ;;
  write_P k (0.5 * erf (normarg1 / PrimFloat.sqrt 2)
             - 0.5 * erf (normarg2 / PrimFloat.sqrt 2)) ;;~
  kt <~ top_index p ix ;;
  t <~ read_P kt ;;
  k' <~ index p ix jx ;;
  v <~ read_P k' ;;
  write_P kt (t - v).

(** Lines 62-70. *)
Definition row (p : parameters) (ix : Z) : M unit :=
  bottom_bin p ix ;;~
  h <~ int_op (nz p - 1)%Z ;;
  for_int 1 h (interior_bin p ix).

(** Lines 40-71. *)
Definition ar1 : M unit :=
  p <~ get_param ;;
  _ <~ int_op (nz p) ;;
  _ <~ int_op (nz p - 1)%Z ;;
  for_int 0 (nz p) (set_grid p) ;;~
  for_int 0 (nz p) (row p).

End Libm.

(** The preconditions on the parameters, on binary64 numbers. *)
Definition valid (p : parameters) : Prop :=
  (3 <= nz p)%Z /\
  (0 <? sigma p) = true /\
  (PrimFloat.abs (rho p) <? 1) = true /\
  (0 <? lambda p) = true.

(** A valid call with an innovation of standard deviation [2^-60] around
    the mean 1, and one with a grid of 1000 standard deviations. *)
Definition narrow : parameters := Parameters 3 1 0 0x1p-60 1.
Definition wide : parameters := Parameters 3 0 0 1 1000.

Definition zeros (n : nat) : list float := replicate n 0.

End Double.

(** ** Containers: reading after writing *)

#[local] Open Scope Z_scope.

Lemma in_int_true (z : Z) : INT_MIN <= z <= INT_MAX -> in_int z = true.
Proof.
  intros [Hlo Hhi]. unfold in_int.
  apply andb_true_intro; split; apply Z.leb_le; assumption.
Qed.

Lemma vec_get_nat (v : device_vector) (i : Z) :
  0 <= i -> vec_get v i = v !! Z.to_nat i.
Proof.
  intros Hi. unfold vec_get.
  destruct (Z.ltb_spec i 0) as [Hneg | _]; [lia | reflexivity].
Qed.

Lemma vec_get_bound (v : device_vector) (i : Z) (x : REAL) :
  vec_get v i = Some x -> 0 <= i < Z.of_nat (length v).
Proof.
  unfold vec_get. destruct (Z.ltb_spec i 0) as [Hneg | Hpos]; [discriminate |].
  intros Hx. apply lookup_lt_Some in Hx. lia.
Qed.

Lemma vec_get_is_Some (v : device_vector) (i : Z) :
  0 <= i < Z.of_nat (length v) -> exists x, vec_get v i = Some x.
Proof.
  intros Hi. rewrite vec_get_nat by lia.
  destruct (lookup_lt_is_Some_2 v (Z.to_nat i)) as [x Hx]; [lia |].
  exists x. exact Hx.
Qed.

Lemma vec_get_outside (v w : device_vector) (i : Z) :
  length v = length w -> Z.of_nat (length v) <= i -> vec_get v i = vec_get w i.
Proof.
  intros Hlen Hi. rewrite !vec_get_nat by lia.
  rewrite (lookup_ge_None_2 v), (lookup_ge_None_2 w); [reflexivity | lia | lia].
Qed.

Lemma vec_set_ok (v : device_vector) (i : Z) (x : REAL) :
  0 <= i < Z.of_nat (length v) ->
  vec_set v i x = Some (<[Z.to_nat i := x]> v).
Proof.
  intros [Hlo Hhi]. unfold vec_set.
  destruct (Z.leb_spec 0 i); [| lia].
  destruct (Z.ltb_spec i (Z.of_nat (length v))); [reflexivity | lia].
Qed.

Lemma vec_get_insert_eq (v : device_vector) (i : Z) (x : REAL) :
  0 <= i < Z.of_nat (length v) ->
  vec_get (<[Z.to_nat i := x]> v) i = Some x.
Proof.
  intros Hi. rewrite vec_get_nat by lia.
  apply list_lookup_insert_eq. lia.
Qed.

Lemma vec_get_insert_ne (v : device_vector) (i k : Z) (x : REAL) :
  0 <= i -> i <> k ->
  vec_get (<[Z.to_nat i := x]> v) k = vec_get v k.
Proof.
  intros Hi Hne. unfold vec_get.
  destruct (Z.ltb_spec k 0) as [Hneg | Hpos]; [reflexivity |].
  apply list_lookup_insert_ne. lia.
Qed.

Lemma elt_Some (v : device_vector) (k : Z) (x : R) :
  vec_get v k = Some x -> elt v k = x.
Proof. intros Hx. unfold elt. rewrite Hx. reflexivity. Qed.

(** Two cells [i + n*j] of a matrix with [n] rows coincide only when the
    row and the column do. *)
Lemma index_inj (n i j i' j' : Z) :
  0 <= i < n -> 0 <= i' < n -> i + n * j = i' + n * j' -> i = i' /\ j = j'.
Proof.
  intros Hi Hi' Heq.
  assert (Hj : j = j') by nia.
  subst j'. split; [lia | reflexivity].
Qed.

Lemma index_range (n i j : Z) :
  0 <= i < n -> 0 <= j < n -> 0 <= i + n * j < n * n.
Proof. intros Hi Hj. nia. Qed.

#[local] Open Scope R_scope.

(** ** Running the monad *)

Section Run.

Context {A : Type}.

Lemma run_get_param (k : parameters -> M A) (m : mem) :
  (p <- get_param ;; k p) m = k (m_param m) m.
Proof. reflexivity. Qed.

Lemma run_int_op (z : Z) (k : Z -> M A) (m : mem) :
  (INT_MIN <= z <= INT_MAX)%Z ->
  (x <- int_op z ;; k x) m = k z m.
Proof.
  intros Hz. unfold bind, int_op. rewrite (in_int_true z Hz). reflexivity.
Qed.

Lemma run_read_Z (i : Z) (x : REAL) (k : REAL -> M A) (m : mem) :
  vec_get (m_Z m) i = Some x ->
  (y <- read_Z i ;; k y) m = k x m.
Proof. intros Hx. unfold bind, read_Z. rewrite Hx. reflexivity. Qed.

Lemma run_read_P (i : Z) (x : REAL) (k : REAL -> M A) (m : mem) :
  vec_get (m_P m) i = Some x ->
  (y <- read_P i ;; k y) m = k x m.
Proof. intros Hx. unfold bind, read_P. rewrite Hx. reflexivity. Qed.

Lemma run_write_P (i : Z) (x : REAL) (k : M A) (m : mem) :
  (0 <= i < Z.of_nat (length (m_P m)))%Z ->
  (write_P i x ;;; k) m
  = k (Mem (m_param m) (m_Z m) (<[Z.to_nat i := x]> (m_P m))).
Proof.
  intros Hi. unfold bind, write_P. rewrite (vec_set_ok _ _ _ Hi). reflexivity.
Qed.

End Run.

Lemma run_write_P_last (i : Z) (x : REAL) (m : mem) :
  (0 <= i < Z.of_nat (length (m_P m)))%Z ->
  write_P i x m
  = Some (tt, Mem (m_param m) (m_Z m) (<[Z.to_nat i := x]> (m_P m))).
Proof. intros Hi. unfold write_P. rewrite (vec_set_ok _ _ _ Hi). reflexivity. Qed.

Lemma run_write_Z_last (i : Z) (x : REAL) (m : mem) :
  (0 <= i < Z.of_nat (length (m_Z m)))%Z ->
  write_Z i x m
  = Some (tt, Mem (m_param m) (<[Z.to_nat i := x]> (m_Z m)) (m_P m)).
Proof. intros Hi. unfold write_Z. rewrite (vec_set_ok _ _ _ Hi). reflexivity. Qed.

Lemma run_index (p : parameters) (ix jx : Z) {A : Type} (k : Z -> M A) (m : mem) :
  (0 <= ix < nz p)%Z -> (0 <= jx < nz p)%Z -> (nz p * nz p <= INT_MAX)%Z ->
  (x <- index p ix jx ;; k x) m = k (ix + nz p * jx)%Z m.
Proof.
  intros Hi Hj Hmax. unfold index, bind at 1.
  rewrite run_int_op by (unfold INT_MIN; nia).
  unfold int_op. rewrite in_int_true by (unfold INT_MIN; nia). reflexivity.
Qed.

Lemma run_top_index (p : parameters) (ix : Z) {A : Type} (k : Z -> M A) (m : mem) :
  (0 <= ix < nz p)%Z -> (nz p * nz p <= INT_MAX)%Z ->
  (x <- top_index p ix ;; k x) m = k (ix + nz p * (nz p - 1))%Z m.
Proof.
  intros Hi Hmax. unfold top_index, bind at 1.
  rewrite run_int_op by (unfold INT_MIN; nia).
  apply (run_index p ix (nz p - 1) k m); [lia | lia | lia].
Qed.

(** A loop establishes an invariant that each turn of its body keeps. *)
Lemma for_loop_inv (Inv : Z -> mem -> Prop) (body : Z -> M unit) :
  forall (n : nat) (lo : Z) (m : mem),
    Inv lo m ->
    (forall ix s, (lo <= ix < lo + Z.of_nat n)%Z -> Inv ix s ->
                  exists s', body ix s = Some (tt, s') /\ Inv (ix + 1)%Z s') ->
    exists m', for_loop n lo body m = Some (tt, m') /\ Inv (lo + Z.of_nat n)%Z m'.
Proof.
  induction n as [| n IH]; intros lo m Hinv Hbody.
  - exists m. split; [reflexivity |].
    replace (lo + Z.of_nat 0)%Z with lo by lia. exact Hinv.
  - destruct (Hbody lo m) as [s [Hrun Hs]]; [lia | exact Hinv |].
    destruct (IH (lo + 1)%Z s Hs) as [m' [Hloop Hm']].
    + intros ix s' Hix. apply Hbody. lia.
    + exists m'. split.
      * simpl. unfold bind. rewrite Hrun. exact Hloop.
      * replace (lo + Z.of_nat (S n))%Z with (lo + 1 + Z.of_nat n)%Z by lia.
        exact Hm'.
Qed.

Lemma for_int_inv (Inv : Z -> mem -> Prop) (body : Z -> M unit)
      (lo hi : Z) (m : mem) :
  (lo <= hi)%Z ->
  Inv lo m ->
  (forall ix s, (lo <= ix < hi)%Z -> Inv ix s ->
                exists s', body ix s = Some (tt, s') /\ Inv (ix + 1)%Z s') ->
  exists m', for_int lo hi body m = Some (tt, m') /\ Inv hi m'.
Proof.
  intros Hle Hinv Hbody. unfold for_int.
  destruct (for_loop_inv Inv body (Z.to_nat (hi - lo)) lo m Hinv) as [m' [Hrun Hm']].
  - intros ix s Hix. apply Hbody. lia.
  - exists m'. split; [exact Hrun |].
    replace hi with (lo + Z.of_nat (Z.to_nat (hi - lo)))%Z by lia. exact Hm'.
Qed.

(** ** The call contract *)

Lemma valid_two (p : parameters) : valid p -> (2 <= nz p)%Z.
Proof. intros (Hn & _). lia. Qed.

Lemma sized_fits (p : parameters) (Zb Pb : device_vector) :
  sized p Zb Pb -> fits p Zb Pb.
Proof. intros (HZ & HP & Hmax). unfold fits. rewrite HZ, HP. lia. Qed.

(** ** The constants under the preconditions *)

Lemma valid_rho (p : parameters) : valid p -> -1 < rho p < 1.
Proof.
  intros (_ & _ & Hrho & _). apply Rabs_def2 in Hrho. lra.
Qed.

(** [pow (x, 2)] is the square, whatever the sign of [x]. *)
Lemma c_pow_square (x : R) : c_pow x 2 = x ^ 2.
Proof.
  unfold c_pow. destruct (Rlt_dec 0 x) as [Hpos | Hneg].
  - change 2 with (INR 2). apply Rpower_pow. exact Hpos.
  - assert (H2 : Int_part 2 = 2%Z)
      by (symmetry; apply Int_part_spec; lra).
    rewrite H2. destruct (Req_dec_T 2 2) as [_ | Hne]; [| lra].
    reflexivity.
Qed.

(** [pow (x, 0.5)] is the square root of a positive [x]. *)
Lemma c_pow_half (x : R) : 0 < x -> c_pow x 0.5 = sqrt x.
Proof.
  intros Hx. unfold c_pow. destruct (Rlt_dec 0 x) as [_ | Hneg]; [| lra].
  replace 0.5 with (/ 2) by lra. apply Rpower_sqrt. exact Hx.
Qed.

Lemma valid_sqrt_pos (p : parameters) : valid p -> 0 < sqrt (1 - rho p ^ 2).
Proof.
  intros Hv. apply sqrt_lt_R0. pose proof (valid_rho p Hv) as Hr. nra.
Qed.

Lemma sigma_z_sqrt (p : parameters) :
  valid p -> sigma_z p = sigma p / sqrt (1 - rho p ^ 2).
Proof.
  intros Hv. unfold sigma_z. rewrite c_pow_square, c_pow_half; [reflexivity |].
  pose proof (valid_rho p Hv) as Hr. nra.
Qed.

Lemma valid_sigma_z_pos (p : parameters) : valid p -> 0 < sigma_z p.
Proof.
  intros Hv. rewrite sigma_z_sqrt by exact Hv. apply Rdiv_lt_0_compat.
  - destruct Hv as (_ & Hs & _). exact Hs.
  - apply valid_sqrt_pos. exact Hv.
Qed.

Lemma valid_bins_pos (p : parameters) : valid p -> 0 < IZR (nz p - 1).
Proof. intros (Hn & _). apply IZR_lt. lia. Qed.

Lemma zrange (p : parameters) : zmax p - zmin p = 2 * (lambda p * sigma_z p).
Proof. unfold zmax, zmin. ring. Qed.

Lemma valid_zstep_pos (p : parameters) : valid p -> 0 < zstep p.
Proof.
  intros Hv. unfold zstep. rewrite zrange. apply Rdiv_lt_0_compat.
  - pose proof (valid_sigma_z_pos p Hv) as Hs.
    destruct Hv as (_ & _ & _ & Hl).
    pose proof (Rmult_lt_0_compat _ _ Hl Hs). lra.
  - apply valid_bins_pos. exact Hv.
Qed.

Lemma ln_grid (p : parameters) (i : Z) : ln (grid p i) = zmin p + zstep p * IZR i.
Proof. unfold grid. apply ln_exp. Qed.

(** The grid spans the interval from [zmin] to [zmax]. *)
Lemma zstep_span (p : parameters) :
  valid p -> zstep p * IZR (nz p - 1) = zmax p - zmin p.
Proof.
  intros Hv. unfold zstep. field.
  pose proof (valid_bins_pos p Hv). lra.
Qed.

(** ** The grid loop (line 57) *)

Lemma grid_loop_run (p pp : parameters) (Zb Pb : device_vector) :
  (0 <= nz p <= Z.of_nat (length Zb))%Z ->
  exists Z1,
    for_int 0 (nz p) (set_grid p) (Mem pp Zb Pb) = Some (tt, Mem pp Z1 Pb) /\
    length Z1 = length Zb /\
    (forall i, (0 <= i < nz p)%Z -> vec_get Z1 i = Some (grid p i)) /\
    (forall k, (nz p <= k)%Z -> vec_get Z1 k = vec_get Zb k).
Proof.
  intros Hn.
  pose (Inv := fun (ix : Z) (s : mem) =>
    m_param s = pp /\ m_P s = Pb /\ length (m_Z s) = length Zb /\
    (forall i, (0 <= i < ix)%Z -> vec_get (m_Z s) i = Some (grid p i)) /\
    (forall k, (ix <= k)%Z -> vec_get (m_Z s) k = vec_get Zb k)).
  destruct (for_int_inv Inv (set_grid p) 0 (nz p) (Mem pp Zb Pb))
    as [[pp' Z1 P1] [Hrun (Hp & HP & Hlen & Hin & Hout)]].
  - lia.
  - unfold Inv; simpl. repeat split; try reflexivity. intros i Hi. lia.
  - intros ix [sp sZ sP] Hix (Hp & HP & Hlen & Hin & Hout). simpl in *.
    eexists. split.
    + unfold set_grid. apply run_write_Z_last. simpl. lia.
    + unfold Inv; simpl. repeat split; try assumption.
      * rewrite length_insert. exact Hlen.
      * intros i Hi. destruct (Z.eq_dec i ix) as [-> | Hne].
        -- apply vec_get_insert_eq. lia.
        -- rewrite vec_get_insert_ne by lia. apply Hin. lia.
      * intros k Hk. rewrite vec_get_insert_ne by lia. apply Hout. lia.
  - simpl in *. subst pp' P1. exists Z1. repeat split; assumption.
Qed.

(** ** One row of the matrix (lines 62-70) *)

Section Rows.

Variable erf : R -> R.
Variable p : parameters.
Hypothesis Hmax : (nz p * nz p <= INT_MAX)%Z.

Lemma bottom_bin_run (pp : parameters) (Zv Pv : device_vector) (ix : Z) (zi : R) :
  (0 <= ix < nz p)%Z ->
  (nz p * nz p <= Z.of_nat (length Pv))%Z ->
  vec_get Zv ix = Some zi ->
  bottom_bin erf p ix (Mem pp Zv Pv)
  = Some (tt, Mem pp Zv
                  (<[Z.to_nat (ix + nz p * (nz p - 1)) := 1 - bottom_of erf p zi]>
                     (<[Z.to_nat ix := bottom_of erf p zi]> Pv))).
Proof.
  intros Hix Hlen Hzi. unfold bottom_bin.
  rewrite (run_read_Z ix zi) by exact Hzi. cbv beta zeta.
  rewrite run_write_P by (simpl; nia). cbn [m_param m_Z m_P].
  rewrite run_top_index by assumption.
  rewrite (run_read_P ix (bottom_of erf p zi))
    by (cbn [m_P]; apply vec_get_insert_eq; nia).
  rewrite run_write_P_last by (cbn [m_P]; rewrite length_insert; nia).
  reflexivity.
Qed.

Lemma interior_bin_run (pp : parameters) (Zv Pv : device_vector)
      (ix jx : Z) (zi zj t : R) :
  (0 <= ix < nz p)%Z -> (0 <= jx < nz p - 1)%Z ->
  (nz p * nz p <= Z.of_nat (length Pv))%Z ->
  vec_get Zv ix = Some zi ->
  vec_get Zv jx = Some zj ->
  vec_get Pv (ix + nz p * (nz p - 1)) = Some t ->
  interior_bin erf p ix jx (Mem pp Zv Pv)
  = Some (tt, Mem pp Zv
                  (<[Z.to_nat (ix + nz p * (nz p - 1)) := t - interior_of erf p zi zj]>
                     (<[Z.to_nat (ix + nz p * jx) := interior_of erf p zi zj]> Pv))).
Proof.
  intros Hix Hjx Hlen Hzi Hzj Ht. unfold interior_bin.
  rewrite (run_read_Z jx zj) by exact Hzj.
  rewrite (run_read_Z ix zi) by exact Hzi. cbv beta zeta.
  rewrite (run_read_Z jx zj) by exact Hzj.
  rewrite (run_read_Z ix zi) by exact Hzi.
  rewrite run_index by (assumption || lia).
  rewrite run_write_P by (simpl; nia). cbn [m_param m_Z m_P].
  rewrite run_top_index by assumption.
  rewrite (run_read_P _ t)
    by (cbn [m_P]; rewrite vec_get_insert_ne by nia; exact Ht).
  rewrite run_index by (assumption || lia).
  rewrite (run_read_P _ (interior_of erf p zi zj))
    by (cbn [m_P]; apply vec_get_insert_eq; nia).
  rewrite run_write_P_last by (cbn [m_P]; rewrite length_insert; nia).
  reflexivity.
Qed.

Lemma top_after_succ (i jx : Z) :
  (1 <= jx)%Z ->
  top_after erf p i (Z.to_nat (jx + 1 - 1))
  = top_after erf p i (Z.to_nat (jx - 1))
    - interior_of erf p (grid p i) (grid p jx).
Proof.
  intros Hjx.
  replace (Z.to_nat (jx + 1 - 1)) with (S (Z.to_nat (jx - 1))) by lia.
  cbn [top_after].
  replace (Z.of_nat (S (Z.to_nat (jx - 1)))) with jx by lia.
  reflexivity.
Qed.

Lemma row_run (pp : parameters) (Zv P0 : device_vector) (ix : Z) :
  (2 <= nz p)%Z ->
  (0 <= ix < nz p)%Z ->
  (nz p * nz p <= Z.of_nat (length P0))%Z ->
  (forall i, (0 <= i < nz p)%Z -> vec_get Zv i = Some (grid p i)) ->
  exists P1,
    row erf p ix (Mem pp Zv P0) = Some (tt, Mem pp Zv P1) /\
    length P1 = length P0 /\
    (forall k, (forall j, (0 <= j < nz p)%Z -> k <> (ix + nz p * j)%Z) ->
               vec_get P1 k = vec_get P0 k) /\
    (forall j, (0 <= j < nz p)%Z ->
               vec_get P1 (ix + nz p * j) = Some (cell erf p ix j)).
Proof.
  intros Hnz Hix Hlen Hgrid.
  pose (top := (ix + nz p * (nz p - 1))%Z).
  pose (Inv := fun (jx : Z) (s : mem) =>
    m_param s = pp /\ m_Z s = Zv /\ length (m_P s) = length P0 /\
    (forall k, (forall j, (0 <= j < nz p)%Z -> k <> (ix + nz p * j)%Z) ->
               vec_get (m_P s) k = vec_get P0 k) /\
    (forall j, (0 <= j < jx)%Z ->
               vec_get (m_P s) (ix + nz p * j) = Some (lower_cell erf p ix j)) /\
    vec_get (m_P s) top = Some (top_after erf p ix (Z.to_nat (jx - 1)))).
  unfold row, bind at 1.
  rewrite (bottom_bin_run pp Zv P0 ix (grid p ix)) by (auto; lia).
  rewrite run_int_op by (unfold INT_MIN; nia).
  match goal with
  | |- context [for_int _ _ _ ?m0] =>
      destruct (for_int_inv Inv (interior_bin erf p ix) 1 (nz p - 1) m0)
        as [[pp' Z1 P1] [Hrun (Hp & HZ & Hl & Hframe & Hlow & Htop)]]
  end.
  - lia.
  - unfold Inv; cbn [m_param m_Z m_P]. fold top.
    split; [reflexivity |]. split; [reflexivity |].
    split; [rewrite !length_insert; reflexivity |].
    split; [| split].
    + intros k Hk.
      rewrite !vec_get_insert_ne; [reflexivity | lia | | nia |].
      * specialize (Hk 0%Z). lia.
      * specialize (Hk (nz p - 1)%Z). unfold top. lia.
    + intros j Hj. replace j with 0%Z by lia.
      replace (ix + nz p * 0)%Z with ix by lia.
      rewrite vec_get_insert_ne by (unfold top; nia).
      apply vec_get_insert_eq. nia.
    + apply vec_get_insert_eq. rewrite length_insert. unfold top. nia.
  - intros jx [sp sZ sP] Hjx (Hp & HZ & Hl & Hframe & Hlow & Htop).
    cbn [m_param m_Z m_P] in *. subst sp sZ.
    eexists. split.
    + apply (interior_bin_run pp Zv sP ix jx (grid p ix) (grid p jx));
        [lia | lia | lia | apply Hgrid; lia | apply Hgrid; lia | exact Htop].
    + unfold Inv; cbn [m_param m_Z m_P]. fold top.
      split; [reflexivity |]. split; [reflexivity |].
      split; [rewrite !length_insert; exact Hl |].
      split; [| split].
      * intros k Hk.
        rewrite !vec_get_insert_ne; [apply Hframe; exact Hk | nia | | nia |].
        -- specialize (Hk jx). lia.
        -- specialize (Hk (nz p - 1)%Z). unfold top. lia.
      * intros j Hj.
        rewrite vec_get_insert_ne by (unfold top; nia).
        destruct (Z.eq_dec j jx) as [-> | Hne].
        -- rewrite vec_get_insert_eq by nia.
           unfold lower_cell. destruct (Z.eqb_spec jx 0); [lia | reflexivity].
        -- rewrite vec_get_insert_ne by nia. apply Hlow. lia.
      * rewrite vec_get_insert_eq by (rewrite length_insert; unfold top; nia).
        rewrite top_after_succ by lia. reflexivity.
  - cbn [m_param m_Z m_P] in *. subst pp' Z1.
    exists P1. split; [exact Hrun |]. split; [exact Hl |].
    split; [exact Hframe |].
    intros j Hj. unfold cell.
    destruct (Z.ltb_spec j (nz p - 1)) as [Hlt | Hge].
    + apply Hlow. lia.
    + replace j with (nz p - 1)%Z by lia. fold top. rewrite Htop.
      replace (nz p - 1 - 1)%Z with (nz p - 2)%Z by lia. reflexivity.
Qed.

End Rows.

(** ** The whole call *)

(** What [ar1] returns: it does return, the parameters are those it was
    given, and the two containers hold the grid and the cells. *)
Lemma ar1_run (erf : R -> R) (p : parameters) (Zb Pb : device_vector) :
  (2 <= nz p)%Z -> fits p Zb Pb ->
  exists Z1 P1,
    ar1 erf (Mem p Zb Pb) = Some (tt, Mem p Z1 P1) /\
    length Z1 = length Zb /\
    length P1 = length Pb /\
    (forall i, (0 <= i < nz p)%Z -> vec_get Z1 i = Some (grid p i)) /\
    (forall k, (nz p <= k)%Z -> vec_get Z1 k = vec_get Zb k) /\
    (forall i j, (0 <= i < nz p)%Z -> (0 <= j < nz p)%Z ->
                 vec_get P1 (i + nz p * j) = Some (cell erf p i j)) /\
    (forall k, (nz p * nz p <= k)%Z -> vec_get P1 k = vec_get Pb k).
Proof.
  intros Hnz (HlenZ & HlenP & Hmax).
  destruct (grid_loop_run p p Zb Pb) as [Z1 (Hgrid & HlZ & Hin & Hout)]; [lia |].
  pose (Inv := fun (ix : Z) (s : mem) =>
    m_param s = p /\ m_Z s = Z1 /\ length (m_P s) = length Pb /\
    (forall i j, (0 <= i < ix)%Z -> (0 <= j < nz p)%Z ->
                 vec_get (m_P s) (i + nz p * j) = Some (cell erf p i j)) /\
    (forall k, (nz p * nz p <= k)%Z -> vec_get (m_P s) k = vec_get Pb k)).
  destruct (for_int_inv Inv (row erf p) 0 (nz p) (Mem p Z1 Pb))
    as [[p' Z2 P2] [Hrows (Hp & HZ & HlP & Hcells & Hframe)]].
  - lia.
  - unfold Inv; cbn [m_param m_Z m_P].
    repeat (split; [reflexivity |]). split; [intros i j Hi; lia | reflexivity].
  - intros ix [sp sZ sP] Hix (Hp & HZ & HlP & Hcells & Hframe).
    cbn [m_param m_Z m_P] in *. subst sp sZ.
    destruct (row_run erf p Hmax p Z1 sP ix)
      as [P' (Hrow & Hl' & Hfr' & Hc')]; [lia | lia | lia | exact Hin |].
    exists (Mem p Z1 P'). split; [exact Hrow |].
    unfold Inv; cbn [m_param m_Z m_P].
    repeat (split; [reflexivity |]). split; [congruence |]. split.
    + intros i j Hi Hj. destruct (Z.eq_dec i ix) as [-> | Hne].
      * apply Hc'. exact Hj.
      * rewrite Hfr'; [apply Hcells; lia |].
        intros j' Hj' Heq.
        apply (index_inj (nz p)) in Heq; [| lia | lia]. lia.
    + intros k Hk. rewrite Hfr'; [apply Hframe; exact Hk |].
      intros j' Hj'. pose proof (index_range (nz p) ix j'). lia.
  - cbn [m_param m_Z m_P] in *. subst p' Z2.
    exists Z1, P2. split.
    + unfold ar1. rewrite run_get_param. cbn [m_param].
      rewrite run_int_op by (unfold INT_MIN; nia).
      rewrite run_int_op by (unfold INT_MIN; nia).
      unfold bind. rewrite Hgrid. exact Hrows.
    + repeat split; assumption.
Qed.

(** ** The frame of the call, whatever the parameters *)

Lemma for_int_none (lo hi : Z) (body : Z -> M unit) (m : mem) :
  (hi <= lo)%Z -> for_int lo hi body m = Some (tt, m).
Proof.
  intros Hle. unfold for_int.
  replace (Z.to_nat (hi - lo)) with 0%nat by lia. reflexivity.
Qed.

Lemma for_int_once (lo : Z) (body : Z -> M unit) (m m' : mem) :
  body lo m = Some (tt, m') -> for_int lo (lo + 1) body m = Some (tt, m').
Proof.
  intros Hbody. unfold for_int.
  replace (Z.to_nat (lo + 1 - lo)) with 1%nat by lia.
  cbn [for_loop]. unfold bind. rewrite Hbody. reflexivity.
Qed.

(** The only row of a matrix with one state. *)
Lemma row_run_single (erf : R -> R) (p pp : parameters)
      (Zv P0 : device_vector) (z0 : R) :
  nz p = 1%Z ->
  (1 <= Z.of_nat (length P0))%Z ->
  vec_get Zv 0 = Some z0 ->
  exists P1,
    row erf p 0 (Mem pp Zv P0) = Some (tt, Mem pp Zv P1) /\
    length P1 = length P0 /\
    (forall k, (1 <= k)%Z -> vec_get P1 k = vec_get P0 k).
Proof.
  intros Hn1 Hlen Hz0.
  assert (Hmax : (nz p * nz p <= INT_MAX)%Z)
    by (rewrite Hn1; unfold INT_MAX; lia).
  eexists. split; [| split].
  - unfold row, bind at 1.
    rewrite (bottom_bin_run erf p Hmax pp Zv P0 0 z0) by (assumption || lia).
    rewrite run_int_op by (rewrite Hn1; unfold INT_MIN, INT_MAX; lia).
    apply for_int_none. lia.
  - rewrite !length_insert. reflexivity.
  - intros k Hk. rewrite !vec_get_insert_ne by lia. reflexivity.
Qed.

Lemma ar1_frame_run (erf : R -> R) (p : parameters) (Zb Pb : device_vector) :
  fits p Zb Pb ->
  exists Z1 P1,
    ar1 erf (Mem p Zb Pb) = Some (tt, Mem p Z1 P1) /\
    length Z1 = length Zb /\
    length P1 = length Pb /\
    (forall k, (nz p <= k)%Z -> vec_get Z1 k = vec_get Zb k) /\
    (forall k, (nz p * nz p <= k)%Z -> vec_get P1 k = vec_get Pb k).
Proof.
  intros Hfit.
  destruct (Z_lt_le_dec (nz p) 2) as [Hsmall | Hbig].
  - destruct Hfit as (HlZ & HlP & Hmax).
    assert (Hint : (INT_MIN <= nz p - 1 /\ nz p <= INT_MAX)%Z)
      by (unfold INT_MIN, INT_MAX in *; nia).
    assert (Hstart : ar1 erf (Mem p Zb Pb)
                     = (for_int 0 (nz p) (set_grid p) ;;;
                        for_int 0 (nz p) (row erf p)) (Mem p Zb Pb)).
    { unfold ar1. rewrite run_get_param. cbn [m_param].
      rewrite run_int_op by lia. rewrite run_int_op by lia. reflexivity. }
    rewrite Hstart. clear Hstart.
    destruct (Z_lt_le_dec (nz p) 1) as [Hnone | Hone].
    + exists Zb, Pb. split; [| repeat split; reflexivity].
      unfold bind. rewrite for_int_none by lia. apply for_int_none. lia.
    + assert (Hn1 : nz p = 1%Z) by lia.
      destruct (grid_loop_run p p Zb Pb) as [Z1 (Hgrid & HlZ1 & Hin & Hout)];
        [lia |].
      destruct (row_run_single erf p p Z1 Pb (grid p 0) Hn1)
        as [P1 (Hrow & HlP1 & HfrP)]; [lia | apply Hin; lia |].
      exists Z1, P1. split.
      * unfold bind. rewrite Hgrid. rewrite Hn1.
        apply (for_int_once 0). exact Hrow.
      * repeat split; try assumption.
        intros k Hk. apply HfrP. lia.
  - destruct (ar1_run erf p Zb Pb Hbig Hfit)
      as (Z1 & P1 & Hrun & HlZ & HlP & _ & HfrZ & _ & HfrP).
    exists Z1, P1. repeat split; assumption.
Qed.

(** ** The cells as functions of the parameters *)

Lemma sum_below_ext (n : nat) (f g : Z -> R) :
  (forall j, (0 <= j < Z.of_nat n)%Z -> f j = g j) ->
  sum_below n f = sum_below n g.
Proof.
  induction n as [| n IH]; intros Hfg; [reflexivity |].
  cbn [sum_below]. rewrite IH, (Hfg (Z.of_nat n)); [reflexivity | lia |].
  intros j Hj. apply Hfg. lia.
Qed.

(** The decimal constant of the source, for [field]. *)
Lemma half_decimal : 0.5 = 1 / 2.
Proof. lra. Qed.

Lemma sqrt2_pos : 0 < sqrt 2.
Proof. apply sqrt_lt_R0. lra. Qed.

Section Cells.

Variable erf : R -> R.
Variable p : parameters.

Lemma bottom_of_edge (i : Z) :
  bottom_of erf p (grid p i) = 0.5 + 0.5 * erf (upper_edge p i 0).
Proof.
  unfold bottom_of, upper_edge. rewrite (ln_grid p 0).
  do 3 f_equal. lra.
Qed.

Lemma interior_of_edge (i j : Z) :
  interior_of erf p (grid p i) (grid p j)
  = 0.5 * erf (upper_edge p i j) - 0.5 * erf (lower_edge p i j).
Proof. reflexivity. Qed.

(** A row adds up to one, whatever the number of interior bins. *)
Lemma lower_cells_top (i : Z) (n : nat) :
  sum_below (S n) (lower_cell erf p i) + top_after erf p i n = 1.
Proof.
  induction n as [| n IH].
  - cbn [sum_below top_after]. unfold lower_cell. simpl (_ =? _)%Z. lra.
  - change (sum_below (S (S n)) (lower_cell erf p i))
      with (sum_below (S n) (lower_cell erf p i)
            + lower_cell erf p i (Z.of_nat (S n))).
    cbn [top_after]. unfold lower_cell at 2.
    destruct (Z.eqb_spec (Z.of_nat (S n)) 0) as [H0 | _]; [lia |]. lra.
Qed.

Hypothesis Hvalid : valid p.

Lemma valid_sigma_neq : sigma p <> 0.
Proof. destruct Hvalid as (_ & Hs & _). lra. Qed.

(** The lower edge of a bin is the upper edge of the bin below it. *)
Lemma lower_edge_succ (i j : Z) : lower_edge p i (j + 1) = upper_edge p i j.
Proof.
  unfold lower_edge, upper_edge. rewrite !ln_grid, plus_IZR.
  pose proof valid_sigma_neq. pose proof sqrt2_pos.
  rewrite !half_decimal. field. split; lra.
Qed.


(** The running subtraction telescopes: the top bin is the mass above the
    upper edge of the last interior bin. *)
Lemma top_after_edge (i : Z) (n : nat) :
  top_after erf p i n = 0.5 - 0.5 * erf (upper_edge p i (Z.of_nat n)).
Proof.
  induction n as [| n IH].
  - cbn [top_after]. rewrite bottom_of_edge. change (Z.of_nat 0) with 0%Z. lra.
  - cbn [top_after]. rewrite IH, interior_of_edge.
    replace (Z.of_nat (S n)) with (Z.of_nat n + 1)%Z by lia.
    rewrite lower_edge_succ. lra.
Qed.

End Cells.

(** The stored values are those the specification words with the
    distribution function. *)
Lemma interior_of_cdf (erf : R -> R) (p : parameters) (zi zj : R) :
  interior_of erf p zi zj = cdf_difference erf p zi zj.
Proof. unfold interior_of, cdf_difference, Phi. lra. Qed.

Lemma bottom_of_cdf (erf : R -> R) (p : parameters) (zi : R) :
  bottom_of erf p zi = cdf_bottom erf p zi.
Proof. reflexivity. Qed.

(** ** Bounds on the cells *)

Section Bounds.

Variable erf : R -> R.
Variable p : parameters.
Hypothesis Hvalid : valid p.
Hypothesis erf_monotone : forall x y, x <= y -> erf x <= erf y.
Hypothesis erf_range : forall x, -1 <= erf x <= 1.


End Bounds.

(** ** No persistence *)

Section Independent.

Variable erf : R -> R.
Variable p : parameters.
Hypothesis Hrho : rho p = 0.

Lemma bottom_of_rho0 (zi zi' : R) : bottom_of erf p zi = bottom_of erf p zi'.
Proof. unfold bottom_of. rewrite Hrho, !Rmult_0_l. reflexivity. Qed.

Lemma interior_of_rho0 (zi zi' zj : R) :
  interior_of erf p zi zj = interior_of erf p zi' zj.
Proof. unfold interior_of. rewrite Hrho, !Rmult_0_l. reflexivity. Qed.

Lemma top_after_rho0 (i i' : Z) (n : nat) :
  top_after erf p i n = top_after erf p i' n.
Proof.
  induction n as [| n IH]; cbn [top_after].
  - rewrite (bottom_of_rho0 (grid p i) (grid p i')). reflexivity.
  - rewrite IH, (interior_of_rho0 (grid p i) (grid p i')). reflexivity.
Qed.

Lemma cell_rho0 (i i' j : Z) : cell erf p i j = cell erf p i' j.
Proof.
  unfold cell, lower_cell.
  destruct (Z.ltb_spec j (nz p - 1)); [| apply top_after_rho0].
  destruct (Z.eqb_spec j 0);
    [apply bottom_of_rho0 | apply interior_of_rho0].
Qed.

End Independent.

(** ** A process centred at zero *)

Section Symmetric.

Variable erf : R -> R.
Variable p : parameters.
Hypothesis Hvalid : valid p.
Hypothesis Hmu : mu p = 0.
Hypothesis erf_odd : forall x, erf (- x) = - erf x.

Lemma zmax_opp_zmin : zmax p = - zmin p.
Proof.
  unfold zmax, zmin, mu_z. rewrite Hmu. unfold Rdiv. rewrite Rmult_0_l. ring.
Qed.

Lemma ln_grid_mirror (i : Z) :
  ln (grid p (nz p - 1 - i)) = - ln (grid p i).
Proof.
  rewrite !ln_grid, minus_IZR.
  pose proof (zstep_span p Hvalid) as Hspan. rewrite zmax_opp_zmin in Hspan.
  lra.
Qed.

Lemma upper_edge_mirror (i j : Z) :
  upper_edge p (nz p - 1 - i) (nz p - 1 - j) = - lower_edge p i j.
Proof.
  unfold upper_edge, lower_edge. rewrite !ln_grid_mirror, Hmu.
  pose proof (valid_sigma_neq p Hvalid). pose proof sqrt2_pos.
  rewrite !half_decimal. field. split; lra.
Qed.

Lemma lower_edge_mirror (i j : Z) :
  lower_edge p (nz p - 1 - i) (nz p - 1 - j) = - upper_edge p i j.
Proof.
  unfold upper_edge, lower_edge. rewrite !ln_grid_mirror, Hmu.
  pose proof (valid_sigma_neq p Hvalid). pose proof sqrt2_pos.
  rewrite !half_decimal. field. split; lra.
Qed.

(** The top bin seen from [i] is the bottom bin seen from the mirror
    state. *)
Lemma top_bottom_mirror (i : Z) :
  top_after erf p i (Z.to_nat (nz p - 2))
  = bottom_of erf p (grid p (nz p - 1 - i)).
Proof.
  destruct Hvalid as (Hn & _).
  rewrite (top_after_edge erf p Hvalid), bottom_of_edge.
  replace (Z.of_nat (Z.to_nat (nz p - 2))) with (nz p - 2)%Z by lia.
  rewrite <- (lower_edge_succ p Hvalid).
  replace (nz p - 2 + 1)%Z with (nz p - 1 - 0)%Z by lia.
  replace i with (nz p - 1 - (nz p - 1 - i))%Z at 1 by lia.
  rewrite lower_edge_mirror, erf_odd. lra.
Qed.

Lemma cell_mirror (i j : Z) :
  (0 <= j < nz p)%Z ->
  cell erf p (nz p - 1 - i) (nz p - 1 - j) = cell erf p i j.
Proof.
  intros Hj. destruct Hvalid as (Hn & _). unfold cell, lower_cell.
  destruct (Z.ltb_spec (nz p - 1 - j) (nz p - 1)) as [Hj' | Hj'];
    destruct (Z.ltb_spec j (nz p - 1)) as [Hlt | Hge].
  - destruct (Z.eqb_spec (nz p - 1 - j) 0) as [H0 | _]; [lia |].
    destruct (Z.eqb_spec j 0) as [H0 | _]; [lia |].
    rewrite !interior_of_edge, upper_edge_mirror, lower_edge_mirror, !erf_odd.
    lra.
  - destruct (Z.eqb_spec (nz p - 1 - j) 0) as [_ | H0]; [| lia].
    rewrite top_bottom_mirror. reflexivity.
  - destruct (Z.eqb_spec j 0) as [_ | H0]; [| lia].
    rewrite top_bottom_mirror.
    replace (nz p - 1 - (nz p - 1 - i))%Z with i by lia. reflexivity.
  - lia.
Qed.

End Symmetric.

(** ** The data-parallel formulation *)

Lemma vec_get_fmap_seqZ (f : Z -> R) (n k : Z) :
  (0 <= k < n)%Z -> vec_get (f <$> seqZ 0 n) k = Some (f k).
Proof.
  intros Hk. rewrite vec_get_nat by lia.
  rewrite list_lookup_fmap, lookup_seqZ_lt by lia.
  simpl. do 2 f_equal. lia.
Qed.

Lemma length_fmap_seqZ (f : Z -> R) (n : Z) :
  length (f <$> seqZ 0 n) = Z.to_nat n.
Proof. rewrite length_fmap. apply length_seqZ. Qed.

(** Two containers of the same length with the same elements are equal. *)
Lemma vec_ext (v w : device_vector) :
  length v = length w ->
  (forall k, (0 <= k < Z.of_nat (length v))%Z -> vec_get v k = vec_get w k) ->
  v = w.
Proof.
  intros Hlen Hget. apply list_eq. intros n.
  destruct (Nat.lt_ge_cases n (length v)) as [Hlt | Hge].
  - specialize (Hget (Z.of_nat n)).
    rewrite !vec_get_nat, Nat2Z.id in Hget by lia. apply Hget. lia.
  - rewrite (lookup_ge_None_2 v), (lookup_ge_None_2 w); [reflexivity | lia | lia].
Qed.

Lemma index_mod (n i j : Z) : (0 <= i < n)%Z -> ((i + n * j) `mod` n = i)%Z.
Proof.
  intros Hi. symmetry. apply (Z.mod_unique_pos _ _ j); lia.
Qed.

Lemma index_div (n i j : Z) : (0 <= i < n)%Z -> ((i + n * j) `div` n = j)%Z.
Proof.
  intros Hi. symmetry. apply (Z.div_unique_pos _ _ _ i); lia.
Qed.

(** Every index below [n*n] is the index of a cell. *)
Lemma index_split (n k : Z) :
  (0 < n)%Z -> (0 <= k < n * n)%Z ->
  exists i j, (0 <= i < n)%Z /\ (0 <= j < n)%Z /\ k = (i + n * j)%Z.
Proof.
  intros Hn Hk.
  exists (k `mod` n)%Z, (k `div` n)%Z.
  pose proof (Z.mod_pos_bound k n Hn) as Hmod.
  pose proof (Z.div_mod k n) as Hdm.
  split; [exact Hmod |]. split; [| lia].
  split; [apply Z.div_pos; lia | apply Z.div_lt_upper_bound; lia].
Qed.

Section Parallel.

Variable erf : R -> R.
Variable p : parameters.
Hypothesis Hnz : (2 <= nz p)%Z.

Lemma par_Z_get (i : Z) :
  (0 <= i < nz p)%Z -> vec_get (par_Z p) i = Some (grid p i).
Proof. intros Hi. unfold par_Z. rewrite vec_get_fmap_seqZ by lia. reflexivity. Qed.

Lemma par_bin_lower (i j : Z) :
  (0 <= i < nz p)%Z -> (0 <= j < nz p - 1)%Z ->
  par_bin erf p (par_Z p) i j = lower_cell erf p i j.
Proof.
  intros Hi Hj. unfold par_bin, lower_cell.
  rewrite (elt_Some _ i (grid p i)) by (apply par_Z_get; lia).
  destruct (Z.eqb_spec j 0) as [H0 | Hpos]; [reflexivity |].
  destruct (Z.ltb_spec j (nz p - 1)); [| lia].
  rewrite (elt_Some _ j (grid p j)) by (apply par_Z_get; lia).
  symmetry. apply interior_of_cdf.
Qed.

Lemma par_map_get (i j : Z) :
  (0 <= i < nz p)%Z -> (0 <= j < nz p)%Z ->
  vec_get (par_map erf p (par_Z p)) (i + nz p * j)
  = Some (par_bin erf p (par_Z p) i j).
Proof.
  intros Hi Hj. unfold par_map.
  rewrite vec_get_fmap_seqZ by (apply index_range; lia).
  rewrite index_mod, index_div by lia. reflexivity.
Qed.

Lemma par_P_get (i j : Z) :
  (0 <= i < nz p)%Z -> (0 <= j < nz p)%Z ->
  vec_get (par_P erf p) (i + nz p * j) = Some (cell erf p i j).
Proof.
  intros Hi Hj. unfold par_P, par_reduce.
  rewrite vec_get_fmap_seqZ by (apply index_range; lia).
  rewrite index_mod, index_div by lia. f_equal. unfold cell.
  destruct (Z.eqb_spec j (nz p - 1)) as [Htop | Hlow];
    destruct (Z.ltb_spec j (nz p - 1)) as [Hlt | Hge]; try lia.
  - rewrite (sum_below_ext _ _ (lower_cell erf p i)).
    + pose proof (lower_cells_top erf p i (Z.to_nat (nz p - 2))) as Hsum.
      replace (S (Z.to_nat (nz p - 2))) with (Z.to_nat (nz p - 1)) in Hsum
        by lia.
      lra.
    + intros j' Hj'.
      rewrite (elt_Some _ _ _ (par_map_get i j' Hi ltac:(lia))).
      apply par_bin_lower; lia.
  - rewrite (elt_Some _ _ _ (par_map_get i j Hi Hj)).
    apply par_bin_lower; lia.
Qed.

End Parallel.

(** ** Properties of [ar1] *)

(** C1. For valid parameters and containers that fit, [ar1] returns and,
    for every origin state [i], the sum over [j = 0..nz-1] of
    [P[i + nz*j]] is exactly 1: the top bin holds what the other bins of
    the row leave, and no normalisation pass is needed. *)
Theorem ar1_rows_sum_to_one (erf : R -> R) (p : parameters)
        (Zb Pb : device_vector) :
  valid p -> fits p Zb Pb ->
  exists Z' P',
    ar1 erf (Mem p Zb Pb) = Some (tt, Mem p Z' P') /\
    forall i, (0 <= i < nz p)%Z -> row_sum (nz p) P' i = 1.
Proof.
  intros Hv Hfit.
  destruct (ar1_run erf p Zb Pb (valid_two p Hv) Hfit)
    as (Z' & P' & Hrun & _ & _ & _ & _ & Hcell & _).
  exists Z', P'. split; [exact Hrun |].
  intros i Hi. unfold row_sum.
  pose proof (valid_two p Hv) as Hn.
  rewrite (sum_below_ext _ _ (cell erf p i)).
  - replace (Z.to_nat (nz p)) with (S (S (Z.to_nat (nz p - 2)))) by lia.
    change (sum_below (S (S (Z.to_nat (nz p - 2)))) (cell erf p i))
      with (sum_below (S (Z.to_nat (nz p - 2))) (cell erf p i)
            + cell erf p i (Z.of_nat (S (Z.to_nat (nz p - 2))))).
    rewrite (sum_below_ext _ (cell erf p i) (lower_cell erf p i)).
    + unfold cell at 1.
      destruct (Z.ltb_spec (Z.of_nat (S (Z.to_nat (nz p - 2)))) (nz p - 1));
        [lia |].
      apply lower_cells_top.
    + intros j Hj. unfold cell.
      destruct (Z.ltb_spec j (nz p - 1)); [reflexivity | lia].
  - intros j Hj. apply elt_Some, Hcell; lia.
Qed.

(** C2. For valid parameters, [ar1] sets [Z[i] = exp (zmin + zstep*i)] for
    every [i] in [0..nz-1], where [sigma_z = sigma / sqrt (1 - rho^2)],
    [mu_z = mu / (1 - rho)], [zmin = mu_z - lambda*sigma_z],
    [zmax = mu_z + lambda*sigma_z] and [zstep = (zmax - zmin) / (nz - 1)]. *)
Theorem ar1_grid_values (erf : R -> R) (p : parameters)
        (Zb Pb : device_vector) :
  valid p -> fits p Zb Pb ->
  (exists Z' P',
     ar1 erf (Mem p Zb Pb) = Some (tt, Mem p Z' P') /\
     forall i, (0 <= i < nz p)%Z ->
               vec_get Z' i = Some (exp (zmin p + zstep p * IZR i))) /\
  sigma_z p = sigma p / sqrt (1 - rho p ^ 2) /\
  mu_z p = mu p / (1 - rho p) /\
  zmin p = mu_z p - lambda p * sigma_z p /\
  zmax p = mu_z p + lambda p * sigma_z p /\
  zstep p = (zmax p - zmin p) / (IZR (nz p) - 1).
Proof.
  intros Hv Hfit. split.
  - destruct (ar1_run erf p Zb Pb (valid_two p Hv) Hfit)
      as (Z' & P' & Hrun & _ & _ & Hgrid & _).
    exists Z', P'. split; [exact Hrun | exact Hgrid].
  - split; [apply sigma_z_sqrt; exact Hv |].
    repeat (split; [reflexivity |]).
    unfold zstep. rewrite minus_IZR. reflexivity.
Qed.

(** C3. For valid parameters, every origin state [i] and every interior
    destination state [j = 1..nz-2], the element at index [i + nz*j] of [P]
    is the difference of the standard normal distribution function at
    [(log(Z[j]) - mu - rho*log(Z[i]))/sigma + 0.5*zstep/sigma] and at
    [(log(Z[j]) - mu - rho*log(Z[i]))/sigma - 0.5*zstep/sigma]; and the
    turn of the inner loop that stores it subtracts this amount from the
    running value of the top bin [P[i + nz*(nz-1)]]. *)
Theorem ar1_interior_bins (erf : R -> R) (p : parameters)
        (Zb Pb : device_vector) :
  valid p -> fits p Zb Pb ->
  (exists Z' P',
     ar1 erf (Mem p Zb Pb) = Some (tt, Mem p Z' P') /\
     forall i j, (0 <= i < nz p)%Z -> (1 <= j <= nz p - 2)%Z ->
       vec_get P' (i + nz p * j)
       = Some (cdf_difference erf p (elt Z' i) (elt Z' j))) /\
  (forall i j, (0 <= i < nz p)%Z -> (1 <= j <= nz p - 2)%Z ->
     exists t P1,
       vec_get Pb (i + nz p * (nz p - 1)) = Some t /\
       interior_bin erf p i j (Mem p Zb Pb) = Some (tt, Mem p Zb P1) /\
       vec_get P1 (i + nz p * j)
       = Some (cdf_difference erf p (elt Zb i) (elt Zb j)) /\
       vec_get P1 (i + nz p * (nz p - 1))
       = Some (t - cdf_difference erf p (elt Zb i) (elt Zb j))).
Proof.
  intros Hv Hfit. pose proof (valid_two p Hv) as Hn. split.
  - destruct (ar1_run erf p Zb Pb Hn Hfit)
      as (Z' & P' & Hrun & _ & _ & Hgrid & _ & Hcell & _).
    exists Z', P'. split; [exact Hrun |].
    intros i j Hi Hj. rewrite Hcell by lia.
    rewrite (elt_Some Z' i (grid p i)), (elt_Some Z' j (grid p j))
      by (apply Hgrid; lia).
    unfold cell, lower_cell.
    destruct (Z.ltb_spec j (nz p - 1)); [| lia].
    destruct (Z.eqb_spec j 0); [lia |].
    rewrite interior_of_cdf. reflexivity.
  - destruct Hfit as (HlZ & HlP & Hmax).
    intros i j Hi Hj.
    destruct (vec_get_is_Some Zb i) as [zi Hzi]; [lia |].
    destruct (vec_get_is_Some Zb j) as [zj Hzj]; [lia |].
    destruct (vec_get_is_Some Pb (i + nz p * (nz p - 1))) as [t Ht]; [nia |].
    rewrite (elt_Some Zb i zi Hzi), (elt_Some Zb j zj Hzj).
    rewrite <- interior_of_cdf.
    eexists t, _. split; [exact Ht |]. split.
    + apply (interior_bin_run erf p Hmax p Zb Pb i j zi zj t);
        [lia | lia | lia | exact Hzi | exact Hzj | exact Ht].
    + split.
      * rewrite vec_get_insert_ne by nia. apply vec_get_insert_eq. nia.
      * apply vec_get_insert_eq. rewrite length_insert. nia.
Qed.

(** C4. For valid parameters and every origin state [i], the bottom bin
    is [P[i + nz*0] = 0.5 + 0.5*erf(arg/sqrt(2))] with
    [arg = (zmin - mu - rho*log(Z[i]))/sigma + 0.5*zstep/sigma], and the
    statements of the row that precede the loop over the interior bins
    leave [1 - P[i + nz*0]] in the top bin [P[i + nz*(nz-1)]]. *)
Theorem ar1_bottom_bin (erf : R -> R) (p : parameters)
        (Zb Pb : device_vector) :
  valid p -> fits p Zb Pb ->
  (exists Z' P',
     ar1 erf (Mem p Zb Pb) = Some (tt, Mem p Z' P') /\
     forall i, (0 <= i < nz p)%Z ->
       vec_get P' (i + nz p * 0)
       = Some (0.5 + 0.5 * erf (((zmin p - mu p - rho p * ln (elt Z' i)) / sigma p
                                 + 0.5 * zstep p / sigma p) / sqrt 2))) /\
  (forall i, (0 <= i < nz p)%Z ->
     row erf p i
     = (bottom_bin erf p i ;;;
        h <- int_op (nz p - 1)%Z ;; for_int 1 h (interior_bin erf p i)) /\
     exists b P1,
       bottom_bin erf p i (Mem p Zb Pb) = Some (tt, Mem p Zb P1) /\
       vec_get P1 (i + nz p * 0) = Some b /\
       vec_get P1 (i + nz p * (nz p - 1)) = Some (1 - b)).
Proof.
  intros Hv Hfit. pose proof (valid_two p Hv) as Hn. split.
  - destruct (ar1_run erf p Zb Pb Hn Hfit)
      as (Z' & P' & Hrun & _ & _ & Hgrid & _ & Hcell & _).
    exists Z', P'. split; [exact Hrun |].
    intros i Hi. rewrite Hcell by lia.
    rewrite (elt_Some Z' i (grid p i)) by (apply Hgrid; lia).
    unfold cell. destruct (Z.ltb_spec 0 (nz p - 1)); [reflexivity | lia].
  - destruct Hfit as (HlZ & HlP & Hmax).
    intros i Hi. split; [reflexivity |].
    destruct (vec_get_is_Some Zb i) as [zi Hzi]; [lia |].
    eexists (bottom_of erf p zi), _. split.
    + apply (bottom_bin_run erf p Hmax p Zb Pb i zi); [lia | lia | exact Hzi].
    + replace (i + nz p * 0)%Z with i by lia. split.
      * rewrite vec_get_insert_ne by nia. apply vec_get_insert_eq. nia.
      * apply vec_get_insert_eq. rewrite length_insert. nia.
Qed.

(** C5. In exact real arithmetic, for valid parameters, the grid [Z] that
    [ar1] produces consists of [nz] positive values and is strictly
    increasing: [Z[i] < Z[i+1]] for every [i] in [0..nz-2].  (On binary64
    numbers neighbouring grid values can coincide, see
    [ar1_grid_flat_on_binary64].) *)
Theorem ar1_grid_increasing (erf : R -> R) (p : parameters)
        (Zb Pb : device_vector) :
  valid p -> sized p Zb Pb ->
  exists Z' P',
    ar1 erf (Mem p Zb Pb) = Some (tt, Mem p Z' P') /\
    Z.of_nat (length Z') = nz p /\
    (forall i, (0 <= i < nz p)%Z -> 0 < elt Z' i) /\
    (forall i, (0 <= i <= nz p - 2)%Z -> elt Z' i < elt Z' (i + 1)).
Proof.
  intros Hv Hsz.
  destruct (ar1_run erf p Zb Pb (valid_two p Hv) (sized_fits p Zb Pb Hsz))
    as (Z' & P' & Hrun & HlZ & _ & Hgrid & _).
  exists Z', P'. split; [exact Hrun |]. split; [| split].
  - rewrite HlZ. destruct Hsz as (HZ & _). exact HZ.
  - intros i Hi. rewrite (elt_Some Z' i (grid p i)) by (apply Hgrid; lia).
    apply exp_pos.
  - intros i Hi.
    rewrite (elt_Some Z' i (grid p i)) by (apply Hgrid; lia).
    rewrite (elt_Some Z' (i + 1) (grid p (i + 1))) by (apply Hgrid; lia).
    unfold grid. apply exp_increasing. rewrite plus_IZR.
    pose proof (valid_zstep_pos p Hv). lra.
Qed.


(** C7. For valid parameters, computing every bin below the top one on
    its own from the distribution function and then taking, row by row,
    one minus the sum of [P[i,0..nz-2]] as the top bin gives the matrix
    (and the grid) that the running subtraction of [ar1] gives. *)
Theorem ar1_parallel_equivalent (erf : R -> R) (p : parameters)
        (Zb Pb : device_vector) :
  valid p -> sized p Zb Pb ->
  ar1 erf (Mem p Zb Pb) = Some (tt, Mem p (par_Z p) (par_P erf p)).
Proof.
  intros Hv Hsz. pose proof (valid_two p Hv) as Hn.
  destruct (ar1_run erf p Zb Pb Hn (sized_fits p Zb Pb Hsz))
    as (Z' & P' & Hrun & HlZ & HlP & Hgrid & _ & Hcell & _).
  destruct Hsz as (HZ & HP & _).
  assert (HZeq : Z' = par_Z p).
  { apply vec_ext.
    - unfold par_Z. rewrite length_fmap_seqZ. lia.
    - intros k Hk. rewrite Hgrid, par_Z_get by lia. reflexivity. }
  assert (HPeq : P' = par_P erf p).
  { apply vec_ext.
    - unfold par_P, par_reduce. rewrite length_fmap_seqZ. lia.
    - intros k Hk.
      destruct (index_split (nz p) k) as (i & j & Hi & Hj & ->); [lia | lia |].
      rewrite Hcell, (par_P_get erf p Hn) by assumption. reflexivity. }
  rewrite Hrun, HZeq, HPeq. reflexivity.
Qed.

(** C8. For valid parameters with [mu = 0] and an odd error function, the
    grid is symmetric around 0 in logarithms,
    [log(Z[i]) = -log(Z[nz-1-i])], and the matrix is unchanged when rows
    and columns are reversed together,
    [P[i + nz*j] = P[(nz-1-i) + nz*(nz-1-j)]]. *)
Theorem ar1_symmetry (erf : R -> R) (p : parameters) (Zb Pb : device_vector) :
  (forall x, erf (- x) = - erf x) ->
  valid p -> mu p = 0 -> fits p Zb Pb ->
  exists Z' P',
    ar1 erf (Mem p Zb Pb) = Some (tt, Mem p Z' P') /\
    (forall i, (0 <= i < nz p)%Z ->
               ln (elt Z' i) = - ln (elt Z' (nz p - 1 - i))) /\
    (forall i j, (0 <= i < nz p)%Z -> (0 <= j < nz p)%Z ->
       exists x, vec_get P' (i + nz p * j) = Some x /\
                 vec_get P' ((nz p - 1 - i) + nz p * (nz p - 1 - j)) = Some x).
Proof.
  intros Hodd Hv Hmu Hfit.
  destruct (ar1_run erf p Zb Pb (valid_two p Hv) Hfit)
    as (Z' & P' & Hrun & _ & _ & Hgrid & _ & Hcell & _).
  exists Z', P'. split; [exact Hrun |]. split.
  - intros i Hi.
    rewrite (elt_Some Z' i (grid p i)) by (apply Hgrid; lia).
    rewrite (elt_Some Z' (nz p - 1 - i) (grid p (nz p - 1 - i)))
      by (apply Hgrid; lia).
    rewrite (ln_grid_mirror p Hv Hmu). lra.
  - intros i j Hi Hj. exists (cell erf p i j). split.
    + apply Hcell; assumption.
    + rewrite <- (cell_mirror erf p Hv Hmu Hodd i j Hj). apply Hcell; lia.
Qed.

(** C9. In exact real arithmetic, for valid parameters with [rho = 0],
    every row of the matrix that [ar1] produces is the same:
    [P[i + nz*j]] does not depend on the origin state [i].  (On binary64
    numbers a grid value that underflows to 0 makes its row NaN, see
    [ar1_rows_differ_on_binary64].) *)
Theorem ar1_rows_equal_without_persistence (erf : R -> R) (p : parameters)
        (Zb Pb : device_vector) :
  valid p -> rho p = 0 -> fits p Zb Pb ->
  exists Z' P',
    ar1 erf (Mem p Zb Pb) = Some (tt, Mem p Z' P') /\
    forall i i' j, (0 <= i < nz p)%Z -> (0 <= i' < nz p)%Z ->
                   (0 <= j < nz p)%Z ->
      exists x, vec_get P' (i + nz p * j) = Some x /\
                vec_get P' (i' + nz p * j) = Some x.
Proof.
  intros Hv Hrho Hfit.
  destruct (ar1_run erf p Zb Pb (valid_two p Hv) Hfit)
    as (Z' & P' & Hrun & _ & _ & _ & _ & Hcell & _).
  exists Z', P'. split; [exact Hrun |].
  intros i i' j Hi Hi' Hj. exists (cell erf p i j). split.
  - apply Hcell; assumption.
  - rewrite (cell_rho0 erf p Hrho i i' j). apply Hcell; assumption.
Qed.

(** C10. [ar1] writes only the indices [0..nz-1] of the container [Z] and
    [0..nz*nz-1] of the container [P]: when the containers are larger,
    every element beyond these ranges keeps its value, the containers keep
    their lengths, and the parameters record is the one the call received.
    This holds for all parameters, valid or not. *)
Theorem ar1_frame (erf : R -> R) (p : parameters) (Zb Pb : device_vector) :
  fits p Zb Pb ->
  exists m',
    ar1 erf (Mem p Zb Pb) = Some (tt, m') /\
    m_param m' = p /\
    length (m_Z m') = length Zb /\
    length (m_P m') = length Pb /\
    (forall k, (nz p <= k)%Z -> vec_get (m_Z m') k = vec_get Zb k) /\
    (forall k, (nz p * nz p <= k)%Z -> vec_get (m_P m') k = vec_get Pb k).
Proof.
  intros Hfit.
  destruct (ar1_frame_run erf p Zb Pb Hfit)
    as (Z' & P' & Hrun & HlZ & HlP & HfrZ & HfrP).
  exists (Mem p Z' P'). cbn [m_param m_Z m_P].
  repeat split; assumption.
Qed.

(** ** The properties at the scenarios of the specification *)

Lemma div_le_cross (a b c d : R) :
  0 < b -> 0 < d -> a * d <= c * b -> a / b <= c / d.
Proof.
  intros Hb Hd Hle.
  replace (a / b) with (a * d * / (b * d)) by (field; lra).
  replace (c / d) with (c * b * / (b * d)) by (field; lra).
  apply Rmult_le_compat_r; [| exact Hle].
  left. apply Rinv_0_lt_compat. apply Rmult_lt_0_compat; assumption.
Qed.

Lemma sample_erf_odd (x : R) : sample_erf (- x) = - sample_erf x.
Proof.
  unfold sample_erf. rewrite Rabs_Ropp.
  pose proof (Rabs_pos x). field. lra.
Qed.

Lemma sample_erf_monotone (x y : R) : x <= y -> sample_erf x <= sample_erf y.
Proof.
  intros Hxy. unfold sample_erf.
  pose proof (Rabs_pos x) as Hx. pose proof (Rabs_pos y) as Hy.
  apply div_le_cross; [lra | lra |].
  unfold Rabs. destruct (Rcase_abs x), (Rcase_abs y); nra.
Qed.


Lemma tauchen5_valid : valid tauchen5.
Proof.
  unfold valid, tauchen5; cbn [nz sigma rho lambda].
  split; [lia |]. split; [lra |]. split; [| lra].
  apply Rabs_def1; lra.
Qed.

Lemma iid3_valid : valid iid3.
Proof.
  unfold valid, iid3; cbn [nz sigma rho lambda].
  split; [lia |]. split; [lra |]. split; [| lra].
  apply Rabs_def1; lra.
Qed.

Lemma call5_sized : sized tauchen5 (zeros 5) (zeros 25).
Proof. unfold sized, INT_MAX. cbn. lia. Qed.

Lemma call5_fits : fits tauchen5 (zeros 5) (zeros 25).
Proof. apply sized_fits, call5_sized. Qed.

Lemma call3_fits : fits iid3 (zeros 3) (zeros 9).
Proof. unfold fits, INT_MAX. cbn. lia. Qed.

Lemma ar1_rows_sum_to_one_witness :
  exists Z' P',
    ar1 sample_erf call5 = Some (tt, Mem tauchen5 Z' P') /\
    forall i, (0 <= i < nz tauchen5)%Z -> row_sum (nz tauchen5) P' i = 1.
Proof.
  exact (ar1_rows_sum_to_one sample_erf tauchen5 (zeros 5) (zeros 25)
           tauchen5_valid call5_fits).
Defined.

Lemma ar1_grid_values_witness :
  (exists Z' P',
     ar1 sample_erf call5 = Some (tt, Mem tauchen5 Z' P') /\
     forall i, (0 <= i < nz tauchen5)%Z ->
               vec_get Z' i = Some (exp (zmin tauchen5 + zstep tauchen5 * IZR i))) /\
  sigma_z tauchen5 = sigma tauchen5 / sqrt (1 - rho tauchen5 ^ 2) /\
  mu_z tauchen5 = mu tauchen5 / (1 - rho tauchen5) /\
  zmin tauchen5 = mu_z tauchen5 - lambda tauchen5 * sigma_z tauchen5 /\
  zmax tauchen5 = mu_z tauchen5 + lambda tauchen5 * sigma_z tauchen5 /\
  zstep tauchen5 = (zmax tauchen5 - zmin tauchen5) / (IZR (nz tauchen5) - 1).
Proof.
  exact (ar1_grid_values sample_erf tauchen5 (zeros 5) (zeros 25)
           tauchen5_valid call5_fits).
Defined.

Lemma ar1_interior_bins_witness :
  (exists Z' P',
     ar1 sample_erf call5 = Some (tt, Mem tauchen5 Z' P') /\
     forall i j, (0 <= i < nz tauchen5)%Z -> (1 <= j <= nz tauchen5 - 2)%Z ->
       vec_get P' (i + nz tauchen5 * j)
       = Some (cdf_difference sample_erf tauchen5 (elt Z' i) (elt Z' j))) /\
  (forall i j, (0 <= i < nz tauchen5)%Z -> (1 <= j <= nz tauchen5 - 2)%Z ->
     exists t P1,
       vec_get (zeros 25) (i + nz tauchen5 * (nz tauchen5 - 1)) = Some t /\
       interior_bin sample_erf tauchen5 i j call5
       = Some (tt, Mem tauchen5 (zeros 5) P1) /\
       vec_get P1 (i + nz tauchen5 * j)
       = Some (cdf_difference sample_erf tauchen5
                              (elt (zeros 5) i) (elt (zeros 5) j)) /\
       vec_get P1 (i + nz tauchen5 * (nz tauchen5 - 1))
       = Some (t - cdf_difference sample_erf tauchen5
                                  (elt (zeros 5) i) (elt (zeros 5) j))).
Proof.
  exact (ar1_interior_bins sample_erf tauchen5 (zeros 5) (zeros 25)
           tauchen5_valid call5_fits).
Defined.

Lemma ar1_bottom_bin_witness :
  (exists Z' P',
     ar1 sample_erf call5 = Some (tt, Mem tauchen5 Z' P') /\
     forall i, (0 <= i < nz tauchen5)%Z ->
       vec_get P' (i + nz tauchen5 * 0)
       = Some (0.5 + 0.5 * sample_erf
                 (((zmin tauchen5 - mu tauchen5
                    - rho tauchen5 * ln (elt Z' i)) / sigma tauchen5
                   + 0.5 * zstep tauchen5 / sigma tauchen5) / sqrt 2))) /\
  (forall i, (0 <= i < nz tauchen5)%Z ->
     row sample_erf tauchen5 i
     = (bottom_bin sample_erf tauchen5 i ;;;
        h <- int_op (nz tauchen5 - 1)%Z ;;
        for_int 1 h (interior_bin sample_erf tauchen5 i)) /\
     exists b P1,
       bottom_bin sample_erf tauchen5 i call5
       = Some (tt, Mem tauchen5 (zeros 5) P1) /\
       vec_get P1 (i + nz tauchen5 * 0) = Some b /\
       vec_get P1 (i + nz tauchen5 * (nz tauchen5 - 1)) = Some (1 - b)).
Proof.
  exact (ar1_bottom_bin sample_erf tauchen5 (zeros 5) (zeros 25)
           tauchen5_valid call5_fits).
Defined.

Lemma ar1_grid_increasing_witness :
  exists Z' P',
    ar1 sample_erf call5 = Some (tt, Mem tauchen5 Z' P') /\
    Z.of_nat (length Z') = nz tauchen5 /\
    (forall i, (0 <= i < nz tauchen5)%Z -> 0 < elt Z' i) /\
    (forall i, (0 <= i <= nz tauchen5 - 2)%Z -> elt Z' i < elt Z' (i + 1)).
Proof.
  exact (ar1_grid_increasing sample_erf tauchen5 (zeros 5) (zeros 25)
           tauchen5_valid call5_sized).
Defined.


Lemma ar1_parallel_equivalent_witness :
  ar1 sample_erf call5
  = Some (tt, Mem tauchen5 (par_Z tauchen5) (par_P sample_erf tauchen5)).
Proof.
  exact (ar1_parallel_equivalent sample_erf tauchen5 (zeros 5) (zeros 25)
           tauchen5_valid call5_sized).
Defined.

Lemma ar1_symmetry_witness :
  exists Z' P',
    ar1 sample_erf call5 = Some (tt, Mem tauchen5 Z' P') /\
    (forall i, (0 <= i < nz tauchen5)%Z ->
               ln (elt Z' i) = - ln (elt Z' (nz tauchen5 - 1 - i))) /\
    (forall i j, (0 <= i < nz tauchen5)%Z -> (0 <= j < nz tauchen5)%Z ->
       exists x, vec_get P' (i + nz tauchen5 * j) = Some x /\
                 vec_get P' ((nz tauchen5 - 1 - i)
                             + nz tauchen5 * (nz tauchen5 - 1 - j)) = Some x).
Proof.
  exact (ar1_symmetry sample_erf tauchen5 (zeros 5) (zeros 25)
           sample_erf_odd tauchen5_valid eq_refl call5_fits).
Defined.

Lemma ar1_rows_equal_without_persistence_witness :
  exists Z' P',
    ar1 sample_erf call3 = Some (tt, Mem iid3 Z' P') /\
    forall i i' j, (0 <= i < nz iid3)%Z -> (0 <= i' < nz iid3)%Z ->
                   (0 <= j < nz iid3)%Z ->
      exists x, vec_get P' (i + nz iid3 * j) = Some x /\
                vec_get P' (i' + nz iid3 * j) = Some x.
Proof.
  exact (ar1_rows_equal_without_persistence sample_erf iid3 (zeros 3) (zeros 9)
           iid3_valid eq_refl call3_fits).
Defined.

Lemma ar1_frame_witness :
  exists m',
    ar1 sample_erf (Mem iid3 (zeros 4) (zeros 11)) = Some (tt, m') /\
    m_param m' = iid3 /\
    length (m_Z m') = 4%nat /\
    length (m_P m') = 11%nat /\
    (forall k, (3 <= k)%Z -> vec_get (m_Z m') k = vec_get (zeros 4) k) /\
    (forall k, (9 <= k)%Z -> vec_get (m_P m') k = vec_get (zeros 11) k).
Proof.
  refine (ar1_frame sample_erf iid3 (zeros 4) (zeros 11) _).
  unfold fits, INT_MAX. cbn. lia.
Defined.

Lemma write_Z_outside (i : Z) (x : R) (m : mem) :
  (Z.of_nat (length (m_Z m)) <= i)%Z -> write_Z i x m = None.
Proof.
  intros Hi. unfold write_Z, vec_set.
  destruct (Z.ltb_spec i (Z.of_nat (length (m_Z m)))) as [Hlt | _]; [lia |].
  rewrite andb_false_r. reflexivity.
Qed.

(** A grid container shorter than [nz]: the third turn of the grid loop
    writes outside it, and the call has no defined result. *)
Example ar1_short_grid : ar1 sample_erf (Mem iid3 (zeros 2) (zeros 9)) = None.
Proof.
  unfold ar1. rewrite run_get_param. cbn [m_param].
  rewrite run_int_op by (cbn; unfold INT_MIN, INT_MAX; lia).
  rewrite run_int_op by (cbn; unfold INT_MIN, INT_MAX; lia).
  unfold bind at 1, for_int.
  change (Z.to_nat (nz iid3 - 0)) with 3%nat. cbn [for_loop].
  unfold bind at 1, set_grid at 1.
  rewrite run_write_Z_last by (cbn; lia).
  unfold bind at 1, set_grid at 1.
  rewrite run_write_Z_last by (cbn [m_Z]; rewrite length_insert; cbn; lia).
  unfold bind at 1, set_grid at 1.
  rewrite write_Z_outside by (cbn [m_Z]; rewrite !length_insert; cbn; lia).
  reflexivity.
Qed.

(** * Further properties of [ar1] *)

(** ** What a returning run went through *)

Lemma bind_Some {A B : Type} (c : M A) (f : A -> M B) (m : mem) (r : B * mem) :
  bind c f m = Some r ->
  exists a m1, c m = Some (a, m1) /\ f a m1 = Some r.
Proof.
  unfold bind. destruct (c m) as [[a m1] |]; [| discriminate].
  intros Hf. exists a, m1. split; [reflexivity | exact Hf].
Qed.

Lemma int_op_Some (z x : Z) (m m' : mem) :
  int_op z m = Some (x, m') ->
  x = z /\ m' = m /\ (INT_MIN <= z <= INT_MAX)%Z.
Proof.
  unfold int_op, in_int.
  destruct (Z.leb_spec INT_MIN z) as [Hlo | Hlo],
           (Z.leb_spec z INT_MAX) as [Hhi | Hhi];
    cbn [andb]; intros H; inversion H; subst. repeat split; assumption.
Qed.

Lemma read_Z_Some (i : Z) (x : R) (m m' : mem) :
  read_Z i m = Some (x, m') -> m' = m /\ vec_get (m_Z m) i = Some x.
Proof.
  unfold read_Z. destruct (vec_get (m_Z m) i) as [y |]; [| discriminate].
  intros H; inversion H; subst. split; reflexivity.
Qed.

Lemma read_P_Some (i : Z) (x : R) (m m' : mem) :
  read_P i m = Some (x, m') -> m' = m /\ vec_get (m_P m) i = Some x.
Proof.
  unfold read_P. destruct (vec_get (m_P m) i) as [y |]; [| discriminate].
  intros H; inversion H; subst. split; reflexivity.
Qed.

Lemma vec_set_Some (v w : list R) (i : Z) (x : R) :
  vec_set v i x = Some w ->
  (0 <= i < Z.of_nat (length v))%Z /\ w = <[Z.to_nat i := x]> v.
Proof.
  unfold vec_set.
  destruct (Z.leb_spec 0 i) as [Hlo | Hlo],
           (Z.ltb_spec i (Z.of_nat (length v))) as [Hhi | Hhi];
    cbn [andb]; intros H; inversion H; subst. split; [lia | reflexivity].
Qed.

Lemma write_Z_Some (i : Z) (x : R) (u : unit) (m m' : mem) :
  write_Z i x m = Some (u, m') ->
  (0 <= i < Z.of_nat (length (m_Z m)))%Z /\
  m' = Mem (m_param m) (<[Z.to_nat i := x]> (m_Z m)) (m_P m).
Proof.
  unfold write_Z. destruct (vec_set (m_Z m) i x) as [w |] eqn:Hset; [| discriminate].
  apply vec_set_Some in Hset as [Hi ->].
  intros H; inversion H; subst. split; [exact Hi | reflexivity].
Qed.

Lemma write_P_Some (i : Z) (x : R) (u : unit) (m m' : mem) :
  write_P i x m = Some (u, m') ->
  (0 <= i < Z.of_nat (length (m_P m)))%Z /\
  m' = Mem (m_param m) (m_Z m) (<[Z.to_nat i := x]> (m_P m)).
Proof.
  unfold write_P. destruct (vec_set (m_P m) i x) as [w |] eqn:Hset; [| discriminate].
  apply vec_set_Some in Hset as [Hi ->].
  intros H; inversion H; subst. split; [exact Hi | reflexivity].
Qed.

Lemma index_Some (p : parameters) (ix jx k : Z) (m m' : mem) :
  index p ix jx m = Some (k, m') ->
  k = (ix + nz p * jx)%Z /\ m' = m /\ (INT_MIN <= k <= INT_MAX)%Z.
Proof.
  unfold index. intros H.
  apply bind_Some in H as (t & m1 & Ht & H).
  apply int_op_Some in Ht as (-> & -> & _).
  apply int_op_Some in H as (-> & -> & Hk).
  repeat split; lia.
Qed.

Lemma top_index_Some (p : parameters) (ix k : Z) (m m' : mem) :
  top_index p ix m = Some (k, m') ->
  k = (ix + nz p * (nz p - 1))%Z /\ m' = m /\ (INT_MIN <= k <= INT_MAX)%Z.
Proof.
  unfold top_index. intros H.
  apply bind_Some in H as (n1 & m1 & Hn & H).
  apply int_op_Some in Hn as (-> & -> & _).
  apply index_Some in H. exact H.
Qed.

(** ** A run keeps the parameters and the lengths *)

Lemma same_shape_refl (m : mem) : same_shape m m.
Proof. repeat split. Qed.

Lemma same_shape_trans (m1 m2 m3 : mem) :
  same_shape m1 m2 -> same_shape m2 m3 -> same_shape m1 m3.
Proof.
  intros (Hp & HZ & HP) (Hp' & HZ' & HP'). unfold same_shape.
  rewrite Hp', HZ', HP'. repeat split; assumption.
Qed.

Lemma keeps_shape_ret {A : Type} (a : A) : keeps_shape (ret a).
Proof.
  intros m b m' H. inversion H; subst. apply same_shape_refl.
Qed.

Lemma keeps_shape_bind {A B : Type} (c : M A) (f : A -> M B) :
  keeps_shape c -> (forall a, keeps_shape (f a)) -> keeps_shape (bind c f).
Proof.
  intros Hc Hf m b m' H.
  apply bind_Some in H as (a & m1 & Hca & Hfa).
  apply (same_shape_trans m m1 m'); [apply (Hc m a) | apply (Hf a m1 b)];
    assumption.
Qed.

Lemma keeps_shape_get_param : keeps_shape get_param.
Proof. intros m a m' H. inversion H; subst. apply same_shape_refl. Qed.

Lemma keeps_shape_int_op (z : Z) : keeps_shape (int_op z).
Proof.
  intros m a m' H. apply int_op_Some in H as (_ & -> & _).
  apply same_shape_refl.
Qed.

Lemma keeps_shape_read_Z (i : Z) : keeps_shape (read_Z i).
Proof.
  intros m a m' H. apply read_Z_Some in H as (-> & _). apply same_shape_refl.
Qed.

Lemma keeps_shape_read_P (i : Z) : keeps_shape (read_P i).
Proof.
  intros m a m' H. apply read_P_Some in H as (-> & _). apply same_shape_refl.
Qed.

Lemma keeps_shape_write_Z (i : Z) (x : R) : keeps_shape (write_Z i x).
Proof.
  intros m a m' H. apply write_Z_Some in H as (_ & ->).
  unfold same_shape; cbn [m_param m_Z m_P]. rewrite length_insert.
  repeat split.
Qed.

Lemma keeps_shape_write_P (i : Z) (x : R) : keeps_shape (write_P i x).
Proof.
  intros m a m' H. apply write_P_Some in H as (_ & ->).
  unfold same_shape; cbn [m_param m_Z m_P]. rewrite length_insert.
  repeat split.
Qed.

Lemma keeps_shape_for_loop (body : Z -> M unit) :
  (forall ix, keeps_shape (body ix)) ->
  forall n lo, keeps_shape (for_loop n lo body).
Proof.
  intros Hbody. induction n as [| n IH]; intros lo; cbn [for_loop].
  - apply keeps_shape_ret.
  - apply keeps_shape_bind; [apply Hbody | intros _; apply IH].
Qed.

Lemma keeps_shape_for_int (lo hi : Z) (body : Z -> M unit) :
  (forall ix, keeps_shape (body ix)) -> keeps_shape (for_int lo hi body).
Proof. intros Hbody. apply keeps_shape_for_loop. exact Hbody. Qed.

(** The steps of a proof that a computation keeps the shape. *)
Ltac shape_step :=
  first
    [ apply keeps_shape_bind; [| intros ?]
    | apply keeps_shape_for_int; intros ?
    | apply keeps_shape_ret
    | apply keeps_shape_get_param
    | apply keeps_shape_int_op
    | apply keeps_shape_read_Z
    | apply keeps_shape_read_P
    | apply keeps_shape_write_Z
    | apply keeps_shape_write_P ].

Lemma keeps_shape_index (p : parameters) (ix jx : Z) :
  keeps_shape (index p ix jx).
Proof. unfold index. repeat shape_step. Qed.

Lemma keeps_shape_top_index (p : parameters) (ix : Z) :
  keeps_shape (top_index p ix).
Proof. unfold top_index. repeat first [apply keeps_shape_index | shape_step]. Qed.

Lemma keeps_shape_set_grid (p : parameters) (ix : Z) :
  keeps_shape (set_grid p ix).
Proof. unfold set_grid. shape_step. Qed.

Lemma keeps_shape_bottom_bin (erf : R -> R) (p : parameters) (ix : Z) :
  keeps_shape (bottom_bin erf p ix).
Proof.
  unfold bottom_bin.
  repeat first [apply keeps_shape_top_index | shape_step].
Qed.

Lemma keeps_shape_interior_bin (erf : R -> R) (p : parameters) (ix jx : Z) :
  keeps_shape (interior_bin erf p ix jx).
Proof.
  unfold interior_bin.
  repeat first [apply keeps_shape_top_index | apply keeps_shape_index | shape_step].
Qed.

Lemma keeps_shape_row (erf : R -> R) (p : parameters) (ix : Z) :
  keeps_shape (row erf p ix).
Proof.
  unfold row.
  repeat first [apply keeps_shape_bottom_bin | apply keeps_shape_interior_bin
                | shape_step].
Qed.

Lemma keeps_shape_ar1 (erf : R -> R) : keeps_shape (ar1 erf).
Proof.
  unfold ar1.
  repeat first [apply keeps_shape_set_grid | apply keeps_shape_row | shape_step].
Qed.

(** ** The call returns exactly when the containers fit *)

Lemma for_loop_last (body : Z -> M unit) :
  forall (n : nat) (lo : Z) (m : mem) (u : unit) (m' : mem),
    for_loop (S n) lo body m = Some (u, m') ->
    exists s, for_loop n lo body m = Some (tt, s) /\
              body (lo + Z.of_nat n)%Z s = Some (tt, m').
Proof.
  induction n as [| n IH]; intros lo m u m' H.
  - cbn [for_loop] in H. apply bind_Some in H as ([] & m1 & Hbody & Hret).
    inversion Hret; subst. exists m. split; [reflexivity |].
    replace (lo + Z.of_nat 0)%Z with lo by lia. exact Hbody.
  - change (for_loop (S (S n)) lo body)
      with (body lo ;;; for_loop (S n) (lo + 1)%Z body) in H.
    apply bind_Some in H as ([] & m1 & Hbody & Hrest).
    destruct (IH (lo + 1)%Z m1 u m' Hrest) as (s & Hloop & Hlast).
    exists s. split.
    + cbn [for_loop]. unfold bind. rewrite Hbody. exact Hloop.
    + replace (lo + Z.of_nat (S n))%Z with (lo + 1 + Z.of_nat n)%Z by lia.
      exact Hlast.
Qed.

(** The last turn of a loop that returns, and the memory it started in. *)
Lemma for_int_last (body : Z -> M unit) (hi : Z) (m : mem) (u : unit) (m' : mem) :
  (forall ix, keeps_shape (body ix)) ->
  (1 <= hi)%Z ->
  for_int 0 hi body m = Some (u, m') ->
  exists s, same_shape m s /\ body (hi - 1)%Z s = Some (tt, m').
Proof.
  intros Hshape Hhi H. unfold for_int in H.
  replace (Z.to_nat (hi - 0)) with (S (Z.to_nat (hi - 1))) in H by lia.
  apply for_loop_last in H as (s & Hloop & Hlast).
  exists s. split.
  - apply (keeps_shape_for_loop body Hshape _ _ m tt s Hloop).
  - replace (hi - 1)%Z with (0 + Z.of_nat (Z.to_nat (hi - 1)))%Z by lia.
    exact Hlast.
Qed.

Lemma bottom_bin_returns (erf : R -> R) (p : parameters) (ix : Z)
      (m : mem) (u : unit) (m' : mem) :
  bottom_bin erf p ix m = Some (u, m') ->
  (0 <= ix + nz p * (nz p - 1) < Z.of_nat (length (m_P m)))%Z /\
  (ix + nz p * (nz p - 1) <= INT_MAX)%Z.
Proof.
  unfold bottom_bin. intros H.
  apply bind_Some in H as (zi & m1 & Hzi & H).
  apply read_Z_Some in Hzi as (-> & _).
  apply bind_Some in H as ([] & m2 & Hw & H).
  apply write_P_Some in Hw as (_ & ->).
  apply bind_Some in H as (kt & m3 & Hkt & H).
  apply top_index_Some in Hkt as (-> & -> & Hint).
  apply bind_Some in H as (b & m4 & Hb & H).
  apply read_P_Some in Hb as (-> & _).
  apply write_P_Some in H as (Hrange & _).
  cbn [m_P] in Hrange. rewrite length_insert in Hrange.
  split; [exact Hrange | lia].
Qed.

Lemma ar1_returns_fits (erf : R -> R) (p : parameters) (Zb Pb : list R)
      (u : unit) (m' : mem) :
  (1 <= nz p)%Z ->
  ar1 erf (Mem p Zb Pb) = Some (u, m') -> fits p Zb Pb.
Proof.
  intros Hnz H. unfold ar1 in H.
  apply bind_Some in H as (p0 & m0 & Hp & H).
  inversion Hp; subst p0 m0; clear Hp. cbn [m_param] in H.
  apply bind_Some in H as (n & m0 & Hn & H).
  apply int_op_Some in Hn as (_ & -> & _).
  apply bind_Some in H as (n1 & m0 & Hn1 & H).
  apply int_op_Some in Hn1 as (_ & -> & _).
  apply bind_Some in H as ([] & m1 & Hgrid & Hrows).
  pose proof (keeps_shape_for_int 0 (nz p) (set_grid p)
                (keeps_shape_set_grid p) _ _ _ Hgrid) as (_ & _ & HP1).
  apply for_int_last in Hgrid as (s & (_ & HsZ & _) & Hlast);
    [| apply keeps_shape_set_grid | exact Hnz].
  apply write_Z_Some in Hlast as (HZrange & _).
  apply for_int_last in Hrows as (s' & (_ & _ & HsP) & Hrow);
    [| apply keeps_shape_row | exact Hnz].
  unfold row in Hrow. apply bind_Some in Hrow as ([] & m2 & Hbottom & _).
  apply bottom_bin_returns in Hbottom as (HPrange & Hint).
  cbn [m_Z m_P] in *. unfold fits.
  split; [lia |]. split; [lia |].
  unfold INT_MAX in *.
  destruct (Z_le_gt_dec (nz p) 46340); nia.
Qed.

(** X1. Whenever [nz >= 1], the call has a defined result exactly when the
    containers hold at least [nz] and [nz*nz] elements and the cells can
    be indexed by an [int]: the code checks no size, and a shorter
    container is written outside its bounds. *)
Theorem ar1_returns_iff_fits (erf : R -> R) (p : parameters) (Zb Pb : list R) :
  (1 <= nz p)%Z ->
  ((exists m', ar1 erf (Mem p Zb Pb) = Some (tt, m')) <-> fits p Zb Pb).
Proof.
  intros Hnz. split.
  - intros [m' Hrun]. apply (ar1_returns_fits erf p Zb Pb tt m' Hnz Hrun).
  - intros Hfit.
    destruct (ar1_frame_run erf p Zb Pb Hfit) as (Z1 & P1 & Hrun & _).
    exists (Mem p Z1 P1). exact Hrun.
Qed.

(** X2. With [nz <= 0] no loop runs: the call returns the memory it was
    given and touches no container, even an empty one. *)
Theorem ar1_no_state_no_write (erf : R -> R) (m : mem) :
  (INT_MIN < nz (m_param m) <= 0)%Z -> ar1 erf m = Some (tt, m).
Proof.
  intros Hnz. unfold ar1. rewrite run_get_param.
  rewrite run_int_op by (unfold INT_MIN, INT_MAX in *; lia).
  rewrite run_int_op by (unfold INT_MIN, INT_MAX in *; lia).
  unfold bind. rewrite for_int_none by lia. apply for_int_none. lia.
Qed.

(** ** The result does not depend on what the containers held *)

(** Two containers with the same written cells and the same elements
    beyond them are equal. *)
Lemma vec_eq_cells (n : Z) (P Q : list R) (f : Z -> Z -> R) :
  (0 < n)%Z ->
  length P = length Q ->
  (forall i j, (0 <= i < n)%Z -> (0 <= j < n)%Z ->
               vec_get P (i + n * j) = Some (f i j)) ->
  (forall i j, (0 <= i < n)%Z -> (0 <= j < n)%Z ->
               vec_get Q (i + n * j) = Some (f i j)) ->
  (forall k, (n * n <= k)%Z -> vec_get P k = vec_get Q k) ->
  P = Q.
Proof.
  intros Hn Hlen HP HQ Hout. apply vec_ext; [exact Hlen |].
  intros k Hk. destruct (Z_lt_le_dec k (n * n)) as [Hin | Hbeyond].
  - destruct (index_split n k Hn) as (i & j & Hi & Hj & ->); [lia |].
    rewrite HP, HQ by assumption. reflexivity.
  - apply Hout. exact Hbeyond.
Qed.

Lemma vec_eq_grid (n : Z) (V W : list R) (g : Z -> R) :
  length V = length W ->
  (forall i, (0 <= i < n)%Z -> vec_get V i = Some (g i)) ->
  (forall i, (0 <= i < n)%Z -> vec_get W i = Some (g i)) ->
  (forall k, (n <= k)%Z -> vec_get V k = vec_get W k) ->
  V = W.
Proof.
  intros Hlen HV HW Hout. apply vec_ext; [exact Hlen |].
  intros k Hk. destruct (Z_lt_le_dec k n) as [Hin | Hbeyond].
  - rewrite HV, HW by lia. reflexivity.
  - apply Hout. exact Hbeyond.
Qed.

(** X3. With containers sized exactly, the grid and the matrix that [ar1]
    returns are functions of the parameters alone: every cell is written
    before it is read, so nothing of the prior contents survives. *)
Theorem ar1_result_ignores_contents (erf : R -> R) (p : parameters)
        (Zb Pb Zb' Pb' : list R) :
  (2 <= nz p)%Z -> sized p Zb Pb -> sized p Zb' Pb' ->
  exists Z' P',
    ar1 erf (Mem p Zb Pb) = Some (tt, Mem p Z' P') /\
    ar1 erf (Mem p Zb' Pb') = Some (tt, Mem p Z' P').
Proof.
  intros Hnz Hsz Hsz'.
  destruct (ar1_run erf p Zb Pb Hnz (sized_fits p Zb Pb Hsz))
    as (Z1 & P1 & Hrun1 & HlZ1 & HlP1 & Hg1 & _ & Hc1 & _).
  destruct (ar1_run erf p Zb' Pb' Hnz (sized_fits p Zb' Pb' Hsz'))
    as (Z2 & P2 & Hrun2 & HlZ2 & HlP2 & Hg2 & _ & Hc2 & _).
  destruct Hsz as (HZ & HP & _), Hsz' as (HZ' & HP' & _).
  assert (HZeq : Z2 = Z1).
  { apply (vec_eq_grid (nz p) Z2 Z1 (grid p)); [lia | exact Hg2 | exact Hg1 |].
    intros k Hk. apply vec_get_outside; lia. }
  assert (HPeq : P2 = P1).
  { apply (vec_eq_cells (nz p) P2 P1 (cell erf p));
      [lia | lia | exact Hc2 | exact Hc1 |].
    intros k Hk. apply vec_get_outside; lia. }
  exists Z1, P1. split; [exact Hrun1 |]. rewrite Hrun2, HZeq, HPeq. reflexivity.
Qed.

(** X4. Calling [ar1] on the memory it returned changes nothing: a second
    call, with the same parameters and the containers of the first,
    returns the same memory. *)
Theorem ar1_idempotent (erf : R -> R) (p : parameters) (Zb Pb : list R) :
  (2 <= nz p)%Z -> fits p Zb Pb ->
  exists m1,
    ar1 erf (Mem p Zb Pb) = Some (tt, m1) /\
    ar1 erf m1 = Some (tt, m1).
Proof.
  intros Hnz Hfit.
  destruct (ar1_run erf p Zb Pb Hnz Hfit)
    as (Z1 & P1 & Hrun1 & HlZ1 & HlP1 & Hg1 & _ & Hc1 & _).
  assert (Hfit1 : fits p Z1 P1).
  { destruct Hfit as (HZ & HP & Hmax). unfold fits.
    rewrite HlZ1, HlP1. repeat split; assumption. }
  destruct (ar1_run erf p Z1 P1 Hnz Hfit1)
    as (Z2 & P2 & Hrun2 & HlZ2 & HlP2 & Hg2 & HfZ2 & Hc2 & HfP2).
  exists (Mem p Z1 P1). split; [exact Hrun1 |].
  assert (HZeq : Z2 = Z1)
    by (apply (vec_eq_grid (nz p) Z2 Z1 (grid p)); assumption).
  assert (HPeq : P2 = P1)
    by (apply (vec_eq_cells (nz p) P2 P1 (cell erf p));
        [lia | assumption ..]).
  rewrite Hrun2, HZeq, HPeq. reflexivity.
Qed.

(** ** Partial sums of a row and the distribution function *)

Section Cumulative.

Variable erf : R -> R.
Variable p : parameters.
Hypothesis Hvalid : valid p.

(** The bins up to [n] of row [i] add up to the distribution function at
    the upper edge of bin [n]. *)
Lemma lower_cells_prefix (i : Z) (n : nat) :
  sum_below (S n) (lower_cell erf p i)
  = 0.5 + 0.5 * erf (upper_edge p i (Z.of_nat n)).
Proof.
  pose proof (lower_cells_top erf p i n) as Hsum.
  rewrite (top_after_edge erf p Hvalid) in Hsum. lra.
Qed.

Lemma upper_edge_antitone (i i' k : Z) :
  0 <= rho p -> (i <= i')%Z -> upper_edge p i' k <= upper_edge p i k.
Proof.
  intros Hrho Hii. unfold upper_edge. rewrite !ln_grid.
  pose proof (valid_zstep_pos p Hvalid) as Hz.
  pose proof sqrt2_pos as H2.
  destruct Hvalid as (_ & Hs & _).
  assert (Hgrid : zstep p * IZR i <= zstep p * IZR i')
    by (apply Rmult_le_compat_l; [lra | apply IZR_le; exact Hii]).
  unfold Rdiv.
  apply Rmult_le_compat_r; [left; apply Rinv_0_lt_compat; exact H2 |].
  apply Rplus_le_compat_r.
  apply Rmult_le_compat_r; [left; apply Rinv_0_lt_compat; exact Hs |].
  nra.
Qed.

End Cumulative.

Lemma row_prefix_cells (erf : R -> R) (p : parameters) (P' : list R) (i k : Z) :
  (forall i j, (0 <= i < nz p)%Z -> (0 <= j < nz p)%Z ->
               vec_get P' (i + nz p * j) = Some (cell erf p i j)) ->
  (0 <= i < nz p)%Z -> (0 <= k <= nz p - 2)%Z ->
  row_prefix (nz p) P' i k = sum_below (S (Z.to_nat k)) (lower_cell erf p i).
Proof.
  intros Hcell Hi Hk. unfold row_prefix.
  replace (Z.to_nat (k + 1)) with (S (Z.to_nat k)) by lia.
  apply sum_below_ext. intros j Hj.
  rewrite (elt_Some _ _ _ (Hcell i j Hi ltac:(lia))).
  unfold cell. destruct (Z.ltb_spec j (nz p - 1)); [reflexivity | lia].
Qed.

(** X5. For valid parameters, the bins [0..k] of row [i] add up to the
    standard normal distribution function at the upper edge of bin [k],
    for every [k <= nz-2]: the probabilities of a row telescope. *)
Theorem ar1_row_prefix_is_cdf (erf : R -> R) (p : parameters) (Zb Pb : list R) :
  valid p -> fits p Zb Pb ->
  exists Z' P',
    ar1 erf (Mem p Zb Pb) = Some (tt, Mem p Z' P') /\
    forall i k, (0 <= i < nz p)%Z -> (0 <= k <= nz p - 2)%Z ->
      row_prefix (nz p) P' i k
      = Phi erf ((ln (elt Z' k) - mu p - rho p * ln (elt Z' i)) / sigma p
                 + 0.5 * zstep p / sigma p).
Proof.
  intros Hv Hfit.
  destruct (ar1_run erf p Zb Pb (valid_two p Hv) Hfit)
    as (Z' & P' & Hrun & _ & _ & Hgrid & _ & Hcell & _).
  exists Z', P'. split; [exact Hrun |].
  intros i k Hi Hk.
  rewrite (row_prefix_cells erf p P' i k Hcell Hi Hk).
  rewrite (lower_cells_prefix erf p Hv).
  rewrite (elt_Some Z' i (grid p i)), (elt_Some Z' k (grid p k))
    by (apply Hgrid; lia).
  replace (Z.of_nat (Z.to_nat k)) with k by lia.
  reflexivity.
Qed.

(** X6. For valid parameters, the top bin of row [i] ends as the mass of
    the standard normal distribution above the upper edge of bin [nz-2]:
    the residual of the running subtraction is a tail probability. *)
Theorem ar1_top_bin_is_tail (erf : R -> R) (p : parameters) (Zb Pb : list R) :
  valid p -> fits p Zb Pb ->
  exists Z' P',
    ar1 erf (Mem p Zb Pb) = Some (tt, Mem p Z' P') /\
    forall i, (0 <= i < nz p)%Z ->
      vec_get P' (i + nz p * (nz p - 1))
      = Some (1 - Phi erf ((ln (elt Z' (nz p - 2)) - mu p
                            - rho p * ln (elt Z' i)) / sigma p
                           + 0.5 * zstep p / sigma p)).
Proof.
  intros Hv Hfit. pose proof (valid_two p Hv) as Hn.
  destruct (ar1_run erf p Zb Pb Hn Hfit)
    as (Z' & P' & Hrun & _ & _ & Hgrid & _ & Hcell & _).
  exists Z', P'. split; [exact Hrun |].
  intros i Hi. rewrite Hcell by lia. f_equal.
  unfold cell. destruct (Z.ltb_spec (nz p - 1) (nz p - 1)); [lia |].
  rewrite (top_after_edge erf p Hv).
  rewrite (elt_Some Z' i (grid p i)), (elt_Some Z' (nz p - 2) (grid p (nz p - 2)))
    by (apply Hgrid; lia).
  replace (Z.of_nat (Z.to_nat (nz p - 2))) with (nz p - 2)%Z by lia.
  unfold Phi, upper_edge. lra.
Qed.

(** X7. In exact real arithmetic, for valid parameters with [rho >= 0]
    and a monotone error function, a higher origin state moves mass
    upwards: for [i <= i'] the
    bins [0..k] of row [i'] weigh no more than those of row [i], and the
    top bin of row [i'] weighs no less than that of row [i]. *)
Theorem ar1_rows_stochastically_ordered (erf : R -> R) (p : parameters)
        (Zb Pb : list R) :
  (forall x y, x <= y -> erf x <= erf y) ->
  valid p -> 0 <= rho p -> fits p Zb Pb ->
  exists Z' P',
    ar1 erf (Mem p Zb Pb) = Some (tt, Mem p Z' P') /\
    forall i i', (0 <= i)%Z -> (i <= i')%Z -> (i' < nz p)%Z ->
      (forall k, (0 <= k <= nz p - 2)%Z ->
                 row_prefix (nz p) P' i' k <= row_prefix (nz p) P' i k) /\
      elt P' (i + nz p * (nz p - 1)) <= elt P' (i' + nz p * (nz p - 1)).
Proof.
  intros Hmono Hv Hrho Hfit. pose proof (valid_two p Hv) as Hn.
  destruct (ar1_run erf p Zb Pb Hn Hfit)
    as (Z' & P' & Hrun & _ & _ & _ & _ & Hcell & _).
  exists Z', P'. split; [exact Hrun |].
  intros i i' Hi Hii Hi'. split.
  - intros k Hk.
    rewrite !(row_prefix_cells erf p P') by (assumption || lia).
    rewrite !(lower_cells_prefix erf p Hv).
    pose proof (Hmono _ _ (upper_edge_antitone p Hv i i'
                             (Z.of_nat (Z.to_nat k)) Hrho Hii)).
    lra.
  - rewrite (elt_Some _ _ _ (Hcell i (nz p - 1)%Z ltac:(lia) ltac:(lia))).
    rewrite (elt_Some _ _ _ (Hcell i' (nz p - 1)%Z ltac:(lia) ltac:(lia))).
    unfold cell. destruct (Z.ltb_spec (nz p - 1) (nz p - 1)); [lia |].
    rewrite !(top_after_edge erf p Hv).
    pose proof (Hmono _ _ (upper_edge_antitone p Hv i i'
                             (Z.of_nat (Z.to_nat (nz p - 2))) Hrho Hii)).
    lra.
Qed.

(** ** The shape of the grid *)

(** X8. In exact real arithmetic, for valid parameters, the grid is a
    geometric progression from [exp(zmin)] to [exp(zmax)]: its first value is [exp(zmin)], its last
    value [exp(zmax)], and each value is the previous one times
    [exp(zstep)]. *)
Theorem ar1_grid_geometric (erf : R -> R) (p : parameters) (Zb Pb : list R) :
  valid p -> fits p Zb Pb ->
  exists Z' P',
    ar1 erf (Mem p Zb Pb) = Some (tt, Mem p Z' P') /\
    vec_get Z' 0 = Some (exp (zmin p)) /\
    vec_get Z' (nz p - 1) = Some (exp (zmax p)) /\
    forall i, (0 <= i <= nz p - 2)%Z ->
              elt Z' (i + 1) = elt Z' i * exp (zstep p).
Proof.
  intros Hv Hfit. pose proof (valid_two p Hv) as Hn.
  destruct (ar1_run erf p Zb Pb Hn Hfit)
    as (Z' & P' & Hrun & _ & _ & Hgrid & _).
  exists Z', P'. split; [exact Hrun |]. split; [| split].
  - rewrite Hgrid by lia. unfold grid. do 2 f_equal. lra.
  - rewrite Hgrid by lia. unfold grid. do 2 f_equal.
    pose proof (zstep_span p Hv). lra.
  - intros i Hi.
    rewrite (elt_Some Z' i (grid p i)) by (apply Hgrid; lia).
    rewrite (elt_Some Z' (i + 1) (grid p (i + 1))) by (apply Hgrid; lia).
    unfold grid. rewrite <- exp_plus, plus_IZR. f_equal. lra.
Qed.

(** X9. In exact real arithmetic, for valid parameters with [mu = 0] and
    an odd number of states [nz = 2*c + 1], the middle value of the grid
    is 1. *)
Theorem ar1_grid_centre (erf : R -> R) (p : parameters) (Zb Pb : list R) (c : Z) :
  valid p -> mu p = 0 -> nz p = (2 * c + 1)%Z -> fits p Zb Pb ->
  exists Z' P',
    ar1 erf (Mem p Zb Pb) = Some (tt, Mem p Z' P') /\
    vec_get Z' c = Some 1.
Proof.
  intros Hv Hmu Hodd Hfit. pose proof (valid_two p Hv) as Hn.
  destruct (ar1_run erf p Zb Pb Hn Hfit)
    as (Z' & P' & Hrun & _ & _ & Hgrid & _).
  exists Z', P'. split; [exact Hrun |].
  rewrite Hgrid by lia. unfold grid. rewrite <- exp_0. do 2 f_equal.
  pose proof (zstep_span p Hv) as Hspan.
  rewrite (zmax_opp_zmin p Hmu) in Hspan.
  replace (nz p - 1)%Z with (2 * c)%Z in Hspan by lia.
  rewrite mult_IZR in Hspan. lra.
Qed.

(** ** Two states *)

(** X10. With [nz = 2], one state fewer than the specification asks for,
    the inner loop does not run and the call still returns a proper matrix:
    row [i] is the pair of the bottom mass [P[i]] and its complement
    [P[i + 2] = 1 - P[i]]. *)
Theorem ar1_two_states (erf : R -> R) (p : parameters) (Zb Pb : list R) :
  nz p = 2%Z -> fits p Zb Pb ->
  exists Z' P',
    ar1 erf (Mem p Zb Pb) = Some (tt, Mem p Z' P') /\
    forall i, (0 <= i < 2)%Z ->
      vec_get P' i = Some (cdf_bottom erf p (elt Z' i)) /\
      vec_get P' (i + 2) = Some (1 - cdf_bottom erf p (elt Z' i)).
Proof.
  intros Hn2 Hfit.
  destruct (ar1_run erf p Zb Pb ltac:(lia) Hfit)
    as (Z' & P' & Hrun & _ & _ & Hgrid & _ & Hcell & _).
  exists Z', P'. split; [exact Hrun |].
  intros i Hi.
  rewrite (elt_Some Z' i (grid p i)) by (apply Hgrid; lia).
  pose proof (Hcell i 0%Z ltac:(lia) ltac:(lia)) as H0.
  pose proof (Hcell i 1%Z ltac:(lia) ltac:(lia)) as H1.
  rewrite Hn2 in H0, H1.
  replace (i + 2 * 0)%Z with i in H0 by lia.
  replace (i + 2 * 1)%Z with (i + 2)%Z in H1 by lia.
  unfold cell in H0, H1. rewrite Hn2 in H0, H1.
  split; [exact H0 | exact H1].
Qed.

(** ** The rows are independent *)

Lemma rows_commute_on_grid (erf : R -> R) (p pp : parameters)
      (Zv P0 : list R) (i i' : Z) :
  (2 <= nz p)%Z -> (nz p * nz p <= INT_MAX)%Z ->
  (nz p * nz p <= Z.of_nat (length P0))%Z ->
  (forall k, (0 <= k < nz p)%Z -> vec_get Zv k = Some (grid p k)) ->
  (0 <= i < nz p)%Z -> (0 <= i' < nz p)%Z -> i <> i' ->
  exists P2,
    (row erf p i ;;; row erf p i') (Mem pp Zv P0) = Some (tt, Mem pp Zv P2) /\
    (row erf p i' ;;; row erf p i) (Mem pp Zv P0) = Some (tt, Mem pp Zv P2).
Proof.
  intros Hnz Hmax Hlen Hgrid Hi Hi' Hne.
  destruct (row_run erf p Hmax pp Zv P0 i Hnz Hi Hlen Hgrid)
    as (P1 & Hr1 & Hl1 & Hf1 & Hc1).
  destruct (row_run erf p Hmax pp Zv P1 i' Hnz Hi' ltac:(lia) Hgrid)
    as (P2 & Hr2 & Hl2 & Hf2 & Hc2).
  destruct (row_run erf p Hmax pp Zv P0 i' Hnz Hi' Hlen Hgrid)
    as (Q1 & Hs1 & Hm1 & Hg1 & Hd1).
  destruct (row_run erf p Hmax pp Zv Q1 i Hnz Hi ltac:(lia) Hgrid)
    as (Q2 & Hs2 & Hm2 & Hg2 & Hd2).
  assert (Hother : forall a a' j j' : Z,
             (0 <= a < nz p)%Z -> (0 <= a' < nz p)%Z -> a <> a' ->
             (a + nz p * j)%Z <> (a' + nz p * j')%Z).
  { intros a a' j j' Ha Ha' Hd Heq.
    apply (index_inj (nz p)) in Heq; [| lia | lia]. lia. }
  assert (Heq : Q2 = P2).
  { apply vec_ext; [congruence |]. intros k Hk.
    destruct (Z_lt_le_dec k (nz p * nz p)) as [Hin | Hbeyond].
    - destruct (index_split (nz p) k ltac:(lia) ltac:(lia))
        as (a & b & Ha & Hb & ->).
      destruct (Z.eq_dec a i) as [-> | Hai].
      + rewrite Hd2 by exact Hb.
        rewrite Hf2 by (intros j' _; apply Hother; assumption).
        rewrite Hc1 by exact Hb. reflexivity.
      + destruct (Z.eq_dec a i') as [-> | Hai'].
        * rewrite Hg2 by (intros j' _; apply Hother; assumption).
          rewrite Hd1, Hc2 by exact Hb. reflexivity.
        * rewrite Hg2, Hg1, Hf2, Hf1
            by (intros j' _; apply Hother; assumption || lia).
          reflexivity.
    - assert (Hout : forall a, (0 <= a < nz p)%Z ->
                 forall j, (0 <= j < nz p)%Z -> k <> (a + nz p * j)%Z).
      { intros a Ha j Hj. pose proof (index_range (nz p) a j Ha Hj). lia. }
      rewrite Hg2, Hg1, Hf2, Hf1 by (apply Hout; assumption).
      reflexivity. }
  exists P2. unfold bind. rewrite Hr1, Hr2, Hs1, Hs2, Heq.
  split; reflexivity.
Qed.

(** X11. Once the grid loop has run, two rows of the matrix can be
    computed in either order with the same result: the body of the outer
    loop for state [i] touches the cells [P[i + nz*j]] only. *)
Theorem ar1_rows_commute (erf : R -> R) (p : parameters) (Zb Pb : list R) :
  (2 <= nz p)%Z -> fits p Zb Pb ->
  exists m1,
    for_int 0 (nz p) (set_grid p) (Mem p Zb Pb) = Some (tt, m1) /\
    forall i i', (0 <= i < nz p)%Z -> (0 <= i' < nz p)%Z -> i <> i' ->
      exists m2,
        (row erf p i ;;; row erf p i') m1 = Some (tt, m2) /\
        (row erf p i' ;;; row erf p i) m1 = Some (tt, m2).
Proof.
  intros Hnz (HlZ & HlP & Hmax).
  destruct (grid_loop_run p p Zb Pb) as (Z1 & Hgrid & _ & Hin & _); [lia |].
  exists (Mem p Z1 Pb). split; [exact Hgrid |].
  intros i i' Hi Hi' Hne.
  destruct (rows_commute_on_grid erf p p Z1 Pb i i' Hnz Hmax HlP Hin Hi Hi' Hne)
    as (P2 & Hab & Hba).
  exists (Mem p Z1 P2). split; assumption.
Qed.

(** ** The further properties at sample calls *)

Lemma filled5_sized : sized tauchen5 (filled 5 1) (filled 25 7).
Proof. unfold sized, INT_MAX. cbn. lia. Qed.

Lemma tauchen5_two : (2 <= nz tauchen5)%Z.
Proof. cbn. lia. Qed.

Lemma tauchen5_rho : 0 <= rho tauchen5.
Proof. cbn. lra. Qed.

Lemma pair2_fits : fits pair2 (zeros 2) (zeros 4).
Proof. unfold fits, INT_MAX. cbn. lia. Qed.

Lemma ar1_returns_iff_fits_witness :
  (exists m', ar1 sample_erf call3 = Some (tt, m'))
  <-> fits iid3 (zeros 3) (zeros 9).
Proof.
  refine (ar1_returns_iff_fits sample_erf iid3 (zeros 3) (zeros 9) _).
  cbn. lia.
Defined.

Lemma ar1_no_state_no_write_witness :
  ar1 sample_erf (Mem none0 [] []) = Some (tt, Mem none0 [] []).
Proof.
  refine (ar1_no_state_no_write sample_erf (Mem none0 [] []) _).
  unfold INT_MIN. cbn. lia.
Defined.

Lemma ar1_result_ignores_contents_witness :
  exists Z' P',
    ar1 sample_erf call5 = Some (tt, Mem tauchen5 Z' P') /\
    ar1 sample_erf (Mem tauchen5 (filled 5 1) (filled 25 7))
    = Some (tt, Mem tauchen5 Z' P').
Proof.
  exact (ar1_result_ignores_contents sample_erf tauchen5
           (zeros 5) (zeros 25) (filled 5 1) (filled 25 7)
           tauchen5_two call5_sized filled5_sized).
Defined.

Lemma ar1_idempotent_witness :
  exists m1,
    ar1 sample_erf call5 = Some (tt, m1) /\ ar1 sample_erf m1 = Some (tt, m1).
Proof.
  exact (ar1_idempotent sample_erf tauchen5 (zeros 5) (zeros 25)
           tauchen5_two call5_fits).
Defined.

Lemma ar1_row_prefix_is_cdf_witness :
  exists Z' P',
    ar1 sample_erf call5 = Some (tt, Mem tauchen5 Z' P') /\
    forall i k, (0 <= i < nz tauchen5)%Z -> (0 <= k <= nz tauchen5 - 2)%Z ->
      row_prefix (nz tauchen5) P' i k
      = Phi sample_erf
            ((ln (elt Z' k) - mu tauchen5 - rho tauchen5 * ln (elt Z' i))
             / sigma tauchen5
             + 0.5 * zstep tauchen5 / sigma tauchen5).
Proof.
  exact (ar1_row_prefix_is_cdf sample_erf tauchen5 (zeros 5) (zeros 25)
           tauchen5_valid call5_fits).
Defined.

Lemma ar1_top_bin_is_tail_witness :
  exists Z' P',
    ar1 sample_erf call5 = Some (tt, Mem tauchen5 Z' P') /\
    forall i, (0 <= i < nz tauchen5)%Z ->
      vec_get P' (i + nz tauchen5 * (nz tauchen5 - 1))
      = Some (1 - Phi sample_erf
                    ((ln (elt Z' (nz tauchen5 - 2)) - mu tauchen5
                      - rho tauchen5 * ln (elt Z' i)) / sigma tauchen5
                     + 0.5 * zstep tauchen5 / sigma tauchen5)).
Proof.
  exact (ar1_top_bin_is_tail sample_erf tauchen5 (zeros 5) (zeros 25)
           tauchen5_valid call5_fits).
Defined.

Lemma ar1_rows_stochastically_ordered_witness :
  exists Z' P',
    ar1 sample_erf call5 = Some (tt, Mem tauchen5 Z' P') /\
    forall i i', (0 <= i)%Z -> (i <= i')%Z -> (i' < nz tauchen5)%Z ->
      (forall k, (0 <= k <= nz tauchen5 - 2)%Z ->
                 row_prefix (nz tauchen5) P' i' k
                 <= row_prefix (nz tauchen5) P' i k) /\
      elt P' (i + nz tauchen5 * (nz tauchen5 - 1))
      <= elt P' (i' + nz tauchen5 * (nz tauchen5 - 1)).
Proof.
  exact (ar1_rows_stochastically_ordered sample_erf tauchen5 (zeros 5) (zeros 25)
           sample_erf_monotone tauchen5_valid tauchen5_rho call5_fits).
Defined.

Lemma ar1_grid_geometric_witness :
  exists Z' P',
    ar1 sample_erf call5 = Some (tt, Mem tauchen5 Z' P') /\
    vec_get Z' 0 = Some (exp (zmin tauchen5)) /\
    vec_get Z' (nz tauchen5 - 1) = Some (exp (zmax tauchen5)) /\
    forall i, (0 <= i <= nz tauchen5 - 2)%Z ->
              elt Z' (i + 1) = elt Z' i * exp (zstep tauchen5).
Proof.
  exact (ar1_grid_geometric sample_erf tauchen5 (zeros 5) (zeros 25)
           tauchen5_valid call5_fits).
Defined.

Lemma ar1_grid_centre_witness :
  exists Z' P',
    ar1 sample_erf call5 = Some (tt, Mem tauchen5 Z' P') /\
    vec_get Z' 2 = Some 1.
Proof.
  exact (ar1_grid_centre sample_erf tauchen5 (zeros 5) (zeros 25) 2
           tauchen5_valid eq_refl eq_refl call5_fits).
Defined.

Lemma ar1_two_states_witness :
  exists Z' P',
    ar1 sample_erf (Mem pair2 (zeros 2) (zeros 4)) = Some (tt, Mem pair2 Z' P') /\
    forall i, (0 <= i < 2)%Z ->
      vec_get P' i = Some (cdf_bottom sample_erf pair2 (elt Z' i)) /\
      vec_get P' (i + 2) = Some (1 - cdf_bottom sample_erf pair2 (elt Z' i)).
Proof.
  exact (ar1_two_states sample_erf pair2 (zeros 2) (zeros 4) eq_refl pair2_fits).
Defined.

Lemma ar1_rows_commute_witness :
  exists m1,
    for_int 0 (nz tauchen5) (set_grid tauchen5) call5 = Some (tt, m1) /\
    forall i i', (0 <= i < nz tauchen5)%Z -> (0 <= i' < nz tauchen5)%Z ->
                 i <> i' ->
      exists m2,
        (row sample_erf tauchen5 i ;;; row sample_erf tauchen5 i') m1
        = Some (tt, m2) /\
        (row sample_erf tauchen5 i' ;;; row sample_erf tauchen5 i) m1
        = Some (tt, m2).
Proof.
  exact (ar1_rows_commute sample_erf tauchen5 (zeros 5) (zeros 25)
           tauchen5_two call5_fits).
Defined.

(** * Where binary64 numbers part from the real numbers *)

Lemma SFcompare_same (s : spec_float) :
  SFcompare s s = Some Eq \/ SFcompare s s = None.
Proof.
  destruct s as [sg | sg | | sg m e]; cbn [SFcompare].
  - left. destruct sg; reflexivity.
  - left. destruct sg; reflexivity.
  - right. reflexivity.
  - left. rewrite Z.compare_refl.
    assert (Hm : Pos.compare_cont Eq m m = Eq) by apply Pos.compare_cont_refl.
    destruct sg; rewrite Hm; reflexivity.
Qed.

(** No binary64 number is below itself. *)
Lemma binary64_ltb_irrefl (x : float) : (x <? x)%float = false.
Proof.
  rewrite FloatAxioms.ltb_spec. unfold SFltb.
  destruct (SFcompare_same (Prim2SF x)) as [-> | ->]; reflexivity.
Qed.

(** NaN compares equal to nothing. *)
Lemma binary64_eqb_nan (y : float) : (nan =? y)%float = false.
Proof.
  rewrite FloatAxioms.eqb_spec. unfold SFeqb.
  change (Prim2SF nan) with S754_nan. reflexivity.
Qed.

Lemma narrow_valid : Double.valid Double.narrow.
Proof. split; [cbn; lia | repeat split; reflexivity]. Qed.

Lemma wide_valid : Double.valid Double.wide.
Proof. split; [cbn; lia | repeat split; reflexivity]. Qed.

(** C5 does not hold of binary64 numbers.  For the valid
    parameters [nz = 3], [mu = 1], [rho = 0], [sigma = 2^-60],
    [lambda = 1], the bounds [1 - 2^-60] and [1 + 2^-60] both round to 1,
    the step is 0, and the three grid values are one and the same number
    [exp(1)], whatever [exp] is: [Z[0] < Z[1]] does not hold.  Of [pow]
    only the exact cases [pow(0, 2) = 0] and [pow(1, 0.5) = 1] are used. *)
Lemma ar1_grid_flat_on_binary64 :
  exists p : Double.parameters,
    Double.valid p /\
    forall (pow : float -> float -> float) (exp log erf : float -> float),
      pow 0%float 2%float = 0%float ->
      pow 1%float 0.5%float = 1%float ->
      exists Zd Pd z,
        Double.ar1 pow exp log erf
                   (Double.Mem p (Double.zeros 3) (Double.zeros 9))
        = Some (tt, Double.Mem p Zd Pd) /\
        Double.vec_get Zd 0 = Some z /\
        Double.vec_get Zd 1 = Some z /\
        (z <? z)%float = false.
Proof.
  exists Double.narrow. split; [exact narrow_valid |].
  intros pow exp log erf Hpow0 Hpow1.
  destruct (Double.ar1 pow exp log erf
              (Double.Mem Double.narrow (Double.zeros 3) (Double.zeros 9)))
    as [[[] m] |] eqn:Hrun.
  - vm_compute in Hrun. rewrite !Hpow0 in Hrun.
    vm_compute in Hrun. rewrite !Hpow1 in Hrun.
    vm_compute in Hrun. inversion Hrun; subst m; clear Hrun.
    eexists _, _, _. split; [reflexivity |].
    split; [reflexivity |]. split; [reflexivity |].
    apply binary64_ltb_irrefl.
  - vm_compute in Hrun. discriminate Hrun.
Qed.

(** C9 does not hold of binary64 numbers.  For the valid
    parameters [nz = 3], [mu = 0], [rho = 0], [sigma = 1],
    [lambda = 1000], the first grid value is [exp(-1000)], which
    underflows to 0; its logarithm is minus infinity, [rho] times it is
    NaN, and the bottom bin of row 0 is NaN, which equals no entry of
    row 1.  Of <math.h> the proof uses the exact cases of [pow], the
    underflow of [exp(-1000)], [log(0) = -inf] and [erf(NaN) = NaN]. *)
Lemma ar1_rows_differ_on_binary64 :
  exists p : Double.parameters,
    Double.valid p /\ Double.rho p = 0%float /\
    forall (pow : float -> float -> float) (exp log erf : float -> float),
      pow 0%float 2%float = 0%float ->
      pow 1%float 0.5%float = 1%float ->
      exp (-1000)%float = 0%float ->
      log 0%float = neg_infinity ->
      erf nan = nan ->
      exists Zd Pd x y,
        Double.ar1 pow exp log erf
                   (Double.Mem p (Double.zeros 3) (Double.zeros 9))
        = Some (tt, Double.Mem p Zd Pd) /\
        Double.vec_get Pd (0 + 3 * 0) = Some x /\
        Double.vec_get Pd (1 + 3 * 0) = Some y /\
        (x =? y)%float = false.
Proof.
  exists Double.wide. split; [exact wide_valid |]. split; [reflexivity |].
  intros pow exp log erf Hpow0 Hpow1 Hexp Hlog Herf.
  vm_compute in Hexp. vm_compute in Herf.
  destruct (Double.ar1 pow exp log erf
              (Double.Mem Double.wide (Double.zeros 3) (Double.zeros 9)))
    as [[[] m] |] eqn:Hrun.
  - vm_compute in Hrun. rewrite !Hpow0 in Hrun.
    vm_compute in Hrun. rewrite !Hpow1 in Hrun.
    vm_compute in Hrun. rewrite !Hexp in Hrun.
    vm_compute in Hrun. rewrite !Hlog in Hrun.
    vm_compute in Hrun. rewrite !Herf in Hrun.
    vm_compute in Hrun. inversion Hrun; subst m; clear Hrun.
    eexists _, _, _, _. split; [reflexivity |].
    split; [reflexivity |]. split; [reflexivity |].
    apply binary64_eqb_nan.
  - vm_compute in Hrun. discriminate Hrun.
Qed.
